(** * scrub_invisible: removing invisible Unicode characters from a text file

    A shallow embedding of [scrub_invisible.py].

    - A Python [str] is a sequence of Unicode code points: [list N].
    - [INVISIBLE_CHARS] is the module-level set literal, kept as the list of
      its eighteen members; [c in INVISIBLE_CHARS] is a membership test.
    - The two generator expressions of [scrub_invisible] are the pure
      functions [cleaned] and [removed_count].
    - Everything that touches the operating system ([os.path.exists],
      [os.path.isfile], [open], [print]) is an event of an interaction tree;
      the [while True] loop of [get_unique_filename] is [ITree.iter].
      A handler gives the events their meaning on a model of the file
      system, and keeps the history of the calls made.
    - An exception raised by [open] or [print] ends the function: the two
      functions that can raise return [exn + unit].
    - "The run returns [r] in world [w']" is
      [run t w ≈ Ret (w', r)]; "a run that ends, ends in [(w', r)]" is
      [Leaf (w', r) (run t w)]. *)

From Stdlib Require Import NArith List Bool Ascii String Lia DecimalN.
From ITree Require Import ITree ITreeFacts Events.State Events.StateFacts
  Props.Leaf.
Import ListNotations.
Import ITreeNotations.
Local Open Scope itree_scope.
Local Open Scope N_scope.

(* ===================================================================== *)
(** ** Python strings *)
(* ===================================================================== *)

(** A code point, and a [str] as Python iterates over it. *)
Definition codepoint : Type := N.
Definition str : Type := list codepoint.

(** A string literal of the source whose characters are all ASCII. *)
Definition lit (s : string) : str :=
  List.map N_of_ascii (list_ascii_of_string s).

(** [sep.join(parts)]. *)
Fixpoint join (sep : str) (parts : list str) : str :=
  match parts with
  | [] => []
  | [p] => p
  | p :: rest => p ++ sep ++ join sep rest
  end.

(** [sum(xs)] on integers: left to right, starting from 0. *)
Definition sum (xs : list N) : N := fold_left N.add xs 0.

(** [len(s)]. *)
Definition len {A : Type} (s : list A) : N := N.of_nat (List.length s).

(** [str(n)] for a non-negative integer: decimal, no leading zero. *)
Fixpoint str_of_uint (d : Decimal.uint) : str :=
  match d with
  | Decimal.Nil => []
  | Decimal.D0 d' => 48 :: str_of_uint d'
  | Decimal.D1 d' => 49 :: str_of_uint d'
  | Decimal.D2 d' => 50 :: str_of_uint d'
  | Decimal.D3 d' => 51 :: str_of_uint d'
  | Decimal.D4 d' => 52 :: str_of_uint d'
  | Decimal.D5 d' => 53 :: str_of_uint d'
  | Decimal.D6 d' => 54 :: str_of_uint d'
  | Decimal.D7 d' => 55 :: str_of_uint d'
  | Decimal.D8 d' => 56 :: str_of_uint d'
  | Decimal.D9 d' => 57 :: str_of_uint d'
  end.

Definition str_of_int (n : N) : str := str_of_uint (N.to_uint n).

(* ===================================================================== *)
(** ** Module-level constants *)
(* ===================================================================== *)

(** ANSI escape codes; ['\033'] is code point 27. *)
Definition ESC : codepoint := 27.
Definition WHITE : str := ESC :: lit "[97m".
Definition CYAN : str := ESC :: lit "[96m".
Definition MAGENTA : str := ESC :: lit "[95m".
Definition VIOLET : str := ESC :: lit "[38;5;135m".
Definition RED : str := ESC :: lit "[91m".
Definition RESET : str := ESC :: lit "[0m".

(** The set of known invisible characters, in the order of the source. *)
Definition INVISIBLE_CHARS : list codepoint :=
  [ 0x00A0   (* No-break space. *)
  ; 0x2007   (* Figure space. *)
  ; 0x202F   (* Narrow no-break space. *)
  ; 0x200B   (* Zero-width space. *)
  ; 0x200C   (* Zero-width non-joiner. *)
  ; 0x200D   (* Zero-width joiner. *)
  ; 0x2060   (* Word joiner. *)
  ; 0xFEFF   (* BOM / no-break space. *)
  ; 0x180E   (* Mongolian vowel separator (deprecated). *)
  ; 0x2061   (* Function application. *)
  ; 0x2062   (* Invisible times. *)
  ; 0x2063   (* Invisible separator. *)
  ; 0x2064   (* Invisible plus. *)
  ; 0x034F   (* Combining grapheme joiner. *)
  ; 0x115F   (* Hangul choseong filler. *)
  ; 0x1160   (* Hangul jungseong filler. *)
  ; 0x3164   (* Hangul filler. *)
  ; 0xFFA0   (* Halfwidth Hangul filler. *)
  ].

(** [c in INVISIBLE_CHARS]. *)
Definition is_invisible (c : codepoint) : bool :=
  existsb (N.eqb c) INVISIBLE_CHARS.

(* ===================================================================== *)
(** ** The filter (the two passes of [scrub_invisible]) *)
(* ===================================================================== *)

(** [''.join(c for c in content if c not in INVISIBLE_CHARS)] *)
Definition cleaned (content : str) : str :=
  join [] (List.map (fun c => [c])
               (List.filter (fun c => negb (is_invisible c)) content)).

(** [sum(1 for c in content if c in INVISIBLE_CHARS)] *)
Definition removed_count (content : str) : N :=
  sum (List.map (fun _ => 1) (List.filter (fun c => is_invisible c) content)).

(* ===================================================================== *)
(** ** The operating system, as the program sees it *)
(* ===================================================================== *)

(** The exceptions [open], the write and [print] can raise in this model. *)
Inductive exn : Type :=
| FileNotFoundError (path : str)
| IsADirectoryError (path : str)
| UnicodeDecodeError (path : str)
| OSError (path : str)
| UnicodeEncodeError (text : str).

(** The calls the program makes.  [os.path.exists] and [os.path.isfile]
    never raise; the two [with open(...)] blocks and [print] answer with
    the exception raised or with their result. *)
Variant osE : Type -> Type :=
| PathExists (path : str) : osE bool
| PathIsFile (path : str) : osE bool
| ReadText (path : str) : osE (exn + str)
| WriteText (path : str) (text : str) : osE (exn + unit)
| Print (line : str) : osE (exn + unit).

(** An exception leaves the rest of the function unexecuted. *)
Definition try_bind {E : Type -> Type} {A B : Type}
    (t : itree E (exn + A)) (k : A -> itree E (exn + B)) : itree E (exn + B) :=
  r <- t ;;
  match r with
  | inl e => Ret (inl e)
  | inr a => k a
  end.

Notation "x <-? t ;;; k" := (try_bind t (fun x => k))
  (at level 61, t at next level, right associativity) : itree_scope.

(* ===================================================================== *)
(** ** The program *)
(* ===================================================================== *)

(** [f"{base_path}.{counter}"] *)
Definition new_path (base_path : str) (counter : N) : str :=
  base_path ++ lit "." ++ str_of_int counter.

(** One turn of the [while True] loop: [inl] goes round again with the
    incremented counter, [inr] is the [return]. *)
Definition probe (base_path : str) (counter : N) : itree osE (N + str) :=
  taken <- ITree.trigger (PathExists (new_path base_path counter)) ;;
  if negb taken then Ret (inr (new_path base_path counter))
  else Ret (inl (counter + 1)).

Definition get_unique_filename (base_path : str) : itree osE str :=
  taken <- ITree.trigger (PathExists base_path) ;;
  if negb taken then Ret base_path
  else ITree.iter (probe base_path) 1.

Definition error_message (file_path : str) : str :=
  RED ++ lit "Error: '" ++ CYAN ++ file_path ++ RED
      ++ lit "' does not exist." ++ RESET.

(** The four lines of the summary. *)
Definition original_block (content : str) : str :=
  RED ++ lit "Original code block:" ++ RESET ++ [10]
      ++ WHITE ++ content ++ RESET.

Definition cleaned_block (content : str) : str :=
  VIOLET ++ lit "Cleaned code block:" ++ RESET ++ [10]
      ++ WHITE ++ cleaned content ++ RESET.

Definition total_line (content : str) : str :=
  WHITE ++ lit "A total of " ++ MAGENTA
      ++ str_of_int (removed_count content) ++ WHITE
      ++ lit " invisible characters were removed." ++ RESET.

Definition saved_line (new_filename : str) : str :=
  WHITE ++ lit "New file saved as: " ++ CYAN ++ new_filename
      ++ WHITE ++ lit "." ++ RESET.

Definition scrub_invisible (file_path : str) : itree osE (exn + unit) :=
  is_file <- ITree.trigger (PathIsFile file_path) ;;
  if negb is_file then
    printed <-? ITree.trigger (Print (error_message file_path)) ;;;
    Ret (inr tt)
  else
    content <-? ITree.trigger (ReadText file_path) ;;;
    let base_output := file_path ++ lit ".si" in
    new_filename <- get_unique_filename base_output ;;
    closed <-? ITree.trigger (WriteText new_filename (cleaned content)) ;;;
    printed1 <-? ITree.trigger (Print (original_block content)) ;;;
    printed2 <-? ITree.trigger (Print (cleaned_block content)) ;;;
    printed3 <-? ITree.trigger (Print (total_line content)) ;;;
    printed4 <-? ITree.trigger (Print (saved_line new_filename)) ;;;
    Ret (inr tt).

Definition usage : str := lit "Usage: python scrub_invisible.py <file_path>".

(** The [if __name__ == "__main__"] block, on [sys.argv]. *)
Definition main (argv : list str) : itree osE (exn + unit) :=
  if negb (len argv =? 2) then
    printed <-? ITree.trigger (Print usage) ;;;
    Ret (inr tt)
  else scrub_invisible (nth 1 argv []).

(* ===================================================================== *)
(** ** A model of the file system and the console *)
(* ===================================================================== *)

(** What a path names.  A regular file is seen through
    [open(path, 'r', encoding='utf-8').read()]: the text it returns, or
    [None] when the bytes of the file do not decode. *)
Inductive node : Type :=
| RegFile (text : option str)
| Directory.

(** Every path string names its own entry: links and path normalisation
    are left out.  What the operating system refuses to write (a name too
    long, a read-only directory, a full disk) is the [storage] of the
    world, below. *)
Definition filesystem : Type := str -> option node.

Definition str_eqb (a b : str) : bool :=
  if list_eq_dec N.eq_dec a b then true else false.

Definition fs_write (f : filesystem) (path : str) (n : node) : filesystem :=
  fun q => if str_eqb q path then Some n else f q.

(** The calls made so far, oldest first.  [CPrint] is a [print] that
    went through, [CPrintError] one that raised. *)
Inductive call : Type :=
| CExists (path : str)
| CIsFile (path : str)
| CRead (path : str)
| CWrite (path : str) (text : str)
| CPrint (line : str)
| CPrintError (line : str).

(** What the operating system does with
    [with open(path, 'w', encoding='utf-8') as f: f.write(text)]:
    - [Stored]: the file is created and holds the text;
    - [Refused]: [open] raises [OSError] (name too long, read-only
      directory, ...) and nothing is created;
    - [Truncated kept]: the file is created, then the write or the close
      raises [OSError] (disk full, ...) and the file is left with [kept],
      as a later read would see it. *)
Inductive write_outcome : Type :=
| Stored
| Refused
| Truncated (kept : option str).

(** The world: the file system, the calls made so far, the code points
    besides ASCII that the encoding of [sys.stdout] can encode, and what
    the operating system does with a write. *)
Record world : Type := World {
  fs : filesystem;
  history : list call;
  console : codepoint -> bool;
  storage : str -> str -> write_outcome
}.

(** The world [w] after some more calls that have made the file system
    [f]. *)
Definition became (w : world) (f : filesystem) (calls : list call) : world :=
  World f (history w ++ calls) (console w) (storage w).

(** The world after some more calls that left the file system alone. *)
Definition after (w : world) (calls : list call) : world :=
  became w (fs w) calls.

(** Can [print] encode the line for [sys.stdout]: every code point is
    ASCII or one the console encodes. *)
Definition encodable (w : world) (line : str) : bool :=
  forallb (fun c => (c <? 128) || console w c) line.

Definition record (w : world) (c : call) : world := after w [c].

(** [os.path.exists]: is there an entry of any kind. *)
Definition path_exists (f : filesystem) (path : str) : bool :=
  match f path with
  | Some _ => true
  | None => false
  end.

(** [os.path.isfile]: is there a regular file. *)
Definition path_isfile (f : filesystem) (path : str) : bool :=
  match f path with
  | Some (RegFile _) => true
  | _ => false
  end.

(** [with open(path, 'r', encoding='utf-8') as f: f.read()] *)
Definition read_text (f : filesystem) (path : str) : exn + str :=
  match f path with
  | None => inl (FileNotFoundError path)
  | Some Directory => inl (IsADirectoryError path)
  | Some (RegFile None) => inl (UnicodeDecodeError path)
  | Some (RegFile (Some text)) => inr text
  end.

(** [with open(path, 'w', encoding='utf-8') as f: f.write(text)]: mode
    ['w'] creates the file or truncates the one that is there, when the
    operating system lets it. *)
Definition write_text (f : filesystem) (o : write_outcome) (path : str)
    (text : str) : filesystem * (exn + unit) :=
  match f path with
  | Some Directory => (f, inl (IsADirectoryError path))
  | _ =>
      match o with
      | Stored => (fs_write f path (RegFile (Some text)), inr tt)
      | Refused => (f, inl (OSError path))
      | Truncated kept => (fs_write f path (RegFile kept), inl (OSError path))
      end
  end.

(** The new state of the world and the answer to a call. *)
Definition answer {T : Type} (e : osE T) (w : world) : world * T :=
  match e in osE T return world * T with
  | PathExists p => (record w (CExists p), path_exists (fs w) p)
  | PathIsFile p => (record w (CIsFile p), path_isfile (fs w) p)
  | ReadText p => (record w (CRead p), read_text (fs w) p)
  | WriteText p text =>
      let (f', r) := write_text (fs w) (storage w p text) p text in
      (became w f' [CWrite p text], r)
  | Print line =>
      if encodable w line then (record w (CPrint line), inr tt)
      else (record w (CPrintError line), inl (UnicodeEncodeError line))
  end.

Definition handle : osE ~> Monads.stateT world (itree void1) :=
  fun T e w => Ret (answer e w).

(** Running a program from a state of the world. *)
Definition run {R : Type} (t : itree osE R) (w : world)
    : itree void1 (world * R) :=
  interp_state handle t w.

(** What some calls show on the console: every line printed, each
    followed by a newline. *)
Definition shown (calls : list call) : str :=
  flat_map (fun c => match c with CPrint l => l ++ [10] | _ => [] end) calls.

(** What the console shows. *)
Definition stdout (w : world) : str := shown (history w).

(** The paths opened for writing, whether or not the operating system
    went along. *)
Definition written (calls : list call) : list str :=
  flat_map (fun c => match c with CWrite p _ => [p] | _ => [] end) calls.

(** The counters [first], [first + 1], ... the loop goes through in [n]
    turns. *)
Fixpoint counters (first : N) (n : nat) : list N :=
  match n with
  | O => []
  | S n' => first :: counters (first + 1) n'
  end.

(** The [os.path.exists] calls of a run of the loop that starts at
    [first] and makes [n] turns. *)
Definition probes (base_path : str) (first : N) (n : nat) : list call :=
  List.map (fun c => CExists (new_path base_path c)) (counters first n).

(** What the resolver does on the file system [f]: the path [out] it
    returns for [base_path] and the calls it makes.  Either [base_path] is
    free, or [out] is the candidate of the least positive [n] that is
    free. *)
Definition resolved (f : filesystem) (base_path : str) (out : str)
    (calls : list call) : Prop :=
  (path_exists f base_path = false
   /\ out = base_path /\ calls = [CExists base_path])
  \/ (path_exists f base_path = true
      /\ exists n, 0 < n
           /\ (forall m, 0 < m < n ->
                   path_exists f (new_path base_path m) = true)
           /\ path_exists f (new_path base_path n) = false
           /\ out = new_path base_path n
           /\ calls = CExists base_path :: probes base_path 1 (N.to_nat n)).

(** The calls of a run of [scrub_invisible] that saves [content], read
    from [file_path], to [out], the resolver having made [calls]. *)
Definition scrub_calls (file_path content out : str) (calls : list call)
    : list call :=
  [CIsFile file_path; CRead file_path] ++ calls
  ++ [ CWrite out (cleaned content)
     ; CPrint (original_block content)
     ; CPrint (cleaned_block content)
     ; CPrint (total_line content)
     ; CPrint (saved_line out) ].

(** The output paths of the specification for the input [file_path]:
    [<file_path>.si], or [<file_path>.si.<n>] for a positive [n]. *)
Definition output_path_of (file_path : str) (out : str) : Prop :=
  out = file_path ++ lit ".si"
  \/ exists n, 0 < n /\ out = file_path ++ lit ".si." ++ str_of_int n.

(** A file system with finitely many entries: they are all at the paths
    of some list. *)
Definition finite_fs (f : filesystem) : Prop :=
  exists paths : list str, forall q, path_exists f q = true -> In q paths.

(** A small world to run the program in: [notes.txt] holds A, a no-break
    space and B, and two earlier scrubs of it are there; [clean.txt] has
    no invisible character; [docs] is a directory; [raw.bin] does not
    decode. *)
Definition demo_fs : filesystem :=
  fun q =>
    if str_eqb q (lit "notes.txt") then Some (RegFile (Some [65; 0x00A0; 66]))
    else if str_eqb q (lit "notes.txt.si") then Some (RegFile (Some (lit "AB")))
    else if str_eqb q (lit "notes.txt.si.1") then Some (RegFile (Some (lit "AB")))
    else if str_eqb q (lit "clean.txt") then Some (RegFile (Some (lit "hello world")))
    else if str_eqb q (lit "docs") then Some Directory
    else if str_eqb q (lit "raw.bin") then Some (RegFile None)
    else None.

(** A console that encodes in UTF-8: every code point but the
    surrogates. *)
Definition utf8_console (c : codepoint) : bool :=
  (c <? 0x110000) && negb ((0xD800 <=? c) && (c <=? 0xDFFF)).

(** An operating system that stores every write. *)
Definition roomy (path text : str) : write_outcome := Stored.

Definition demo : world := World demo_fs [] utf8_console roomy.

(** A path that names no file and that a UTF-8 console cannot print:
    [caf] and a lone surrogate, as [sys.argv] holds a file name whose bytes
    are not valid UTF-8. *)
Definition surrogate_path : str := [99; 97; 102; 0xDCE9].

(** The world after [scrub_invisible] has run on [notes.txt] in [demo]. *)
Definition demo_scrubbed : world :=
  World (fs_write demo_fs (lit "notes.txt.si.2") (RegFile (Some (lit "AB"))))
        (scrub_calls (lit "notes.txt") [65; 0x00A0; 66] (lit "notes.txt.si.2")
           [ CExists (lit "notes.txt.si")
           ; CExists (lit "notes.txt.si.1")
           ; CExists (lit "notes.txt.si.2") ])
        utf8_console roomy.




(** The paths of the entries of [demo_fs]. *)
Definition demo_paths : list str :=
  [ lit "notes.txt"; lit "notes.txt.si"; lit "notes.txt.si.1"
  ; lit "clean.txt"; lit "docs"; lit "raw.bin" ].

(** A program run that ends, in a world and with a result that satisfy
    [Q]. *)
Definition ends {R : Type} (t : itree void1 (world * R))
    (Q : world -> R -> Prop) : Prop :=
  exists (w' : world) (r : R), t ≈ Ret (w', r) /\ Q w' r.

(** Can the four lines of the summary be printed. *)
Definition summary_encodable (w : world) (content out : str) : bool :=
  encodable w (original_block content)
  && encodable w (cleaned_block content)
  && encodable w (total_line content)
  && encodable w (saved_line out).

(** What a run of [scrub_invisible] on [file_path] that ends has done, at
    the least: it has made some calls; either it has opened nothing for
    writing and the file system is as it was, or the one path it has opened
    for writing is the path [out] the resolver returned, and at most the
    entry at [out] has changed. *)
Definition framed (file_path : str) (w w' : world) : Prop :=
  console w' = console w /\ storage w' = storage w
  /\ exists calls,
       history w' = history w ++ calls
       /\ ((written calls = [] /\ fs w' = fs w)
           \/ exists out rcalls,
                resolved (fs w) (file_path ++ lit ".si") out rcalls
                /\ written calls = [out]
                /\ (fs w' = fs w \/ exists n, fs w' = fs_write (fs w) out n)).

(** What a run of [scrub_invisible] on [file_path] that returns normally
    has done: it has rejected the path and printed the error message, or
    it has saved the cleaned text and printed the summary. *)
Definition succeeded (file_path : str) (w w' : world) : Prop :=
  (path_isfile (fs w) file_path = false
   /\ encodable w (error_message file_path) = true
   /\ w' = after w [CIsFile file_path; CPrint (error_message file_path)])
  \/ (exists content out rcalls,
        fs w file_path = Some (RegFile (Some content))
        /\ resolved (fs w) (file_path ++ lit ".si") out rcalls
        /\ storage w out (cleaned content) = Stored
        /\ summary_encodable w content out = true
        /\ w' = became w (fs_write (fs w) out
                            (RegFile (Some (cleaned content))))
                  (scrub_calls file_path content out rcalls)).

(** A call that is an [os.path.exists] test. *)
Definition is_probe (c : call) : Prop := exists q, c = CExists q.

(** What every run that ends has done, and what every run that returns
    normally has done. *)
Definition outcome (file_path : str) (w : world) (w' : world)
    (r : exn + unit) : Prop :=
  framed file_path w w' /\ (r = inr tt -> succeeded file_path w w').

(* ===================================================================== *)
(** ** The filter as the specification words it *)
(* ===================================================================== *)

(** Membership in the Denylist. *)
Definition denylisted (c : codepoint) : Prop := In c INVISIBLE_CHARS.

(** How many times the code point [d] occurs in [S]. *)
Definition occurrences (S : str) (d : codepoint) : nat :=
  count_occ N.eq_dec S d.

(** The total number of occurrences of denylisted characters in [S]:
    the occurrences of each member of the Denylist, added up. *)
Definition total_occurrences (S : str) : N :=
  N.of_nat (list_sum (List.map (occurrences S) INVISIBLE_CHARS)).

(** [T] is [S] with exactly the denylisted characters left out, the others
    kept in their order. *)
Inductive scrubbed : str -> str -> Prop :=
| scrubbed_nil : scrubbed [] []
| scrubbed_drop c S T : denylisted c -> scrubbed S T -> scrubbed (c :: S) T
| scrubbed_keep c S T :
    ~ denylisted c -> scrubbed S T -> scrubbed (c :: S) (c :: T).

(* ===================================================================== *)
(** * Properties of the filter *)
(* ===================================================================== *)

Example cleaned_ex : cleaned [65; 0xA0; 66] = [65; 66].
Proof. reflexivity. Qed.

Example removed_ex : removed_count [65; 0xA0; 66; 0x200B; 0xA0] = 3.
Proof. reflexivity. Qed.

Example str_of_int_ex : str_of_int 120 = lit "120".
Proof. reflexivity. Qed.

Lemma join_singletons (l : str) : join [] (List.map (fun c => [c]) l) = l.
Proof.
  induction l as [|c [|d l] IH]; try reflexivity.
  change (c :: join [] (List.map (fun x => [x]) (d :: l)) = c :: d :: l).
  now rewrite IH.
Qed.

Lemma fold_add_ones {A : Type} (l : list A) (acc : N) :
  fold_left N.add (List.map (fun _ => 1) l) acc = acc + len l.
Proof.
  revert acc; induction l as [|a l IH]; intros acc; unfold len in *;
    cbn [List.map fold_left List.length].
  - lia.
  - rewrite IH. lia.
Qed.

Lemma sum_ones {A : Type} (l : list A) : sum (List.map (fun _ => 1) l) = len l.
Proof. unfold sum. now rewrite fold_add_ones. Qed.

Lemma cleaned_filter (S : str) :
  cleaned S = List.filter (fun c => negb (is_invisible c)) S.
Proof. unfold cleaned. apply join_singletons. Qed.

Lemma removed_count_filter (S : str) :
  removed_count S = len (List.filter is_invisible S).
Proof. unfold removed_count. apply sum_ones. Qed.

Lemma is_invisible_denylisted (c : codepoint) :
  is_invisible c = true <-> denylisted c.
Proof.
  unfold is_invisible, denylisted. rewrite existsb_exists. split.
  - intros [d [Hin Heq]]. apply N.eqb_eq in Heq. now subst.
  - intros Hin. exists c. split; [assumption | apply N.eqb_refl].
Qed.

Lemma is_invisible_not_denylisted (c : codepoint) :
  is_invisible c = false <-> ~ denylisted c.
Proof.
  rewrite <- is_invisible_denylisted. now destruct (is_invisible c).
Qed.

Lemma cleaned_cons (c : codepoint) (S : str) :
  cleaned (c :: S) = if is_invisible c then cleaned S else c :: cleaned S.
Proof.
  rewrite !cleaned_filter. cbn [List.filter].
  destruct (is_invisible c); reflexivity.
Qed.

Lemma removed_count_cons (c : codepoint) (S : str) :
  removed_count (c :: S)
  = if is_invisible c then 1 + removed_count S else removed_count S.
Proof.
  rewrite !removed_count_filter. cbn [List.filter].
  destruct (is_invisible c); unfold len; cbn [List.length]; lia.
Qed.

Lemma INVISIBLE_CHARS_NoDup : NoDup INVISIBLE_CHARS.
Proof.
  unfold INVISIBLE_CHARS.
  repeat (constructor; [cbn; intuition discriminate|]).
  constructor.
Qed.

(** In a duplicate-free list, the occurrences of [c] counted member by
    member add up to one when [c] is a member and to zero otherwise. *)
Lemma indicator_sum (l : list N) (c : N) :
  NoDup l ->
  list_sum (List.map (fun d => if N.eq_dec c d then 1%nat else 0%nat) l)
  = if existsb (N.eqb c) l then 1%nat else 0%nat.
Proof.
  induction 1 as [|d l Hnotin Hnd IH]; [reflexivity|].
  cbn [List.map existsb]. unfold list_sum in *. cbn [fold_right].
  rewrite IH. destruct (N.eq_dec c d) as [->|Hne].
  - rewrite N.eqb_refl. cbn [orb].
    destruct (existsb (N.eqb d) l) eqn:E; [|reflexivity].
    apply existsb_exists in E. destruct E as [x [Hx Hxd]].
    apply N.eqb_eq in Hxd. subst. contradiction.
  - apply N.eqb_neq in Hne. now rewrite Hne.
Qed.

Lemma list_sum_map_add {A : Type} (f g : A -> nat) (l : list A) :
  list_sum (List.map (fun a => (f a + g a)%nat) l)
  = (list_sum (List.map f l) + list_sum (List.map g l))%nat.
Proof.
  unfold list_sum.
  induction l as [|a l IH]; cbn [List.map fold_right]; [reflexivity|].
  rewrite IH. lia.
Qed.

Lemma removed_count_total (S : str) : removed_count S = total_occurrences S.
Proof.
  unfold total_occurrences.
  induction S as [|c S IH].
  - cbn. reflexivity.
  - rewrite removed_count_cons, IH. unfold total_occurrences, occurrences.
    rewrite (map_ext (count_occ N.eq_dec (c :: S))
               (fun d => ((if N.eq_dec c d then 1 else 0)
                          + count_occ N.eq_dec S d)%nat)).
    2:{ intros d. cbn. now destruct (N.eq_dec c d). }
    rewrite list_sum_map_add, (indicator_sum _ c INVISIBLE_CHARS_NoDup).
    change (existsb (N.eqb c) INVISIBLE_CHARS) with (is_invisible c).
    destruct (is_invisible c); [|reflexivity].
    rewrite Nat2N.inj_add. reflexivity.
Qed.

Lemma cleaned_scrubbed (S : str) : scrubbed S (cleaned S).
Proof.
  induction S as [|c S IH]; [constructor|].
  rewrite cleaned_cons. destruct (is_invisible c) eqn:E.
  - apply scrubbed_drop; [now apply is_invisible_denylisted | assumption].
  - apply scrubbed_keep; [now apply is_invisible_not_denylisted | assumption].
Qed.

Lemma scrubbed_functional (S T : str) : scrubbed S T -> T = cleaned S.
Proof.
  induction 1 as [|c S T Hc _ IH|c S T Hc _ IH]; rewrite ?cleaned_cons.
  - reflexivity.
  - apply is_invisible_denylisted in Hc. now rewrite Hc.
  - apply is_invisible_not_denylisted in Hc. now rewrite Hc, IH.
Qed.

Lemma cleaned_clean (S : str) : Forall (fun c => ~ denylisted c) (cleaned S).
Proof.
  rewrite cleaned_filter. apply Forall_forall. intros c Hc.
  apply filter_In in Hc. destruct Hc as [_ Hc].
  apply is_invisible_not_denylisted. now destruct (is_invisible c).
Qed.

Lemma cleaned_id (S : str) :
  Forall (fun c => ~ denylisted c) S -> cleaned S = S /\ removed_count S = 0.
Proof.
  induction 1 as [|c S Hc _ [IH1 IH2]]; [split; reflexivity|].
  apply is_invisible_not_denylisted in Hc.
  rewrite cleaned_cons, removed_count_cons, Hc, IH1, IH2. split; reflexivity.
Qed.

Lemma cleaned_all (S : str) :
  Forall denylisted S -> cleaned S = [] /\ removed_count S = len S.
Proof.
  induction 1 as [|c S Hc _ [IH1 IH2]]; [split; reflexivity|].
  apply is_invisible_denylisted in Hc.
  rewrite cleaned_cons, removed_count_cons, Hc, IH1, IH2.
  split; [reflexivity | unfold len; cbn [List.length]; lia].
Qed.

Lemma length_partition (S : str) : len (cleaned S) + removed_count S = len S.
Proof.
  induction S as [|c S IH]; [reflexivity|].
  rewrite cleaned_cons, removed_count_cons.
  destruct (is_invisible c); unfold len in *; cbn [List.length]; lia.
Qed.

Lemma occurrences_cleaned (S : str) (c : codepoint) :
  occurrences (cleaned S) c
  = if is_invisible c then 0%nat else occurrences S c.
Proof.
  unfold occurrences. induction S as [|d S IH].
  - change (cleaned []) with (@nil codepoint). cbn [count_occ].
    destruct (is_invisible c); reflexivity.
  - rewrite cleaned_cons. destruct (is_invisible d) eqn:Ed.
    + rewrite IH. destruct (is_invisible c) eqn:Ec; [reflexivity|].
      rewrite count_occ_cons_neq; [reflexivity | congruence].
    + destruct (N.eq_dec d c) as [->|Hne].
      * rewrite Ed in *. rewrite !count_occ_cons_eq by reflexivity.
        f_equal. exact IH.
      * rewrite !count_occ_cons_neq by assumption. exact IH.
Qed.

(** C1: for every string S, the output of the filter is S with exactly the
    denylisted characters left out and the other characters kept in their
    order (and it is the only such string); the removed count is the total
    number of occurrences of denylisted characters in S; the empty string
    gives the empty output and count 0; a string of denylisted characters
    only gives the empty output and a count equal to its length; no
    character of the output is denylisted. *)
Theorem Filter_contract (S : str) :
  scrubbed S (cleaned S)
  /\ (forall T, scrubbed S T -> T = cleaned S)
  /\ removed_count S = total_occurrences S
  /\ (cleaned [] = [] /\ removed_count [] = 0)
  /\ (Forall denylisted S -> cleaned S = [] /\ removed_count S = len S)
  /\ Forall (fun c => ~ denylisted c) (cleaned S).
Proof.
  split; [apply cleaned_scrubbed|].
  split; [apply scrubbed_functional|].
  split; [apply removed_count_total|].
  split; [split; reflexivity|].
  split; [apply cleaned_all | apply cleaned_clean].
Qed.

Lemma Filter_contract_witness :
  Forall denylisted [0x00A0; 0x200B; 0x00A0]
  /\ cleaned [0x00A0; 0x200B; 0x00A0] = []
  /\ removed_count [0x00A0; 0x200B; 0x00A0] = 3.
Proof.
  assert (H : Forall denylisted [0x00A0; 0x200B; 0x00A0]).
  { repeat constructor; unfold denylisted; simpl; tauto. }
  split; [exact H|].
  exact (proj1 (proj2 (proj2 (proj2 (proj2
           (Filter_contract [0x00A0; 0x200B; 0x00A0]))))) H).
Defined.

(** C2: for every string S, the length of the output plus the removed
    count is the length of S. *)
Theorem Filter_length (S : str) :
  len (cleaned S) + removed_count S = len S.
Proof. apply length_partition. Qed.

(** C6: the filter is the identity, with count 0, on a string without
    denylisted characters, and filtering an output again gives the same
    output with count 0. *)
Theorem Filter_identity_idempotent (S : str) :
  (Forall (fun c => ~ denylisted c) S -> cleaned S = S /\ removed_count S = 0)
  /\ cleaned (cleaned S) = cleaned S
  /\ removed_count (cleaned S) = 0.
Proof.
  split; [apply cleaned_id|].
  apply cleaned_id, cleaned_clean.
Qed.

Lemma Filter_identity_idempotent_witness :
  Forall (fun c => ~ denylisted c) (lit "hello world")
  /\ cleaned (lit "hello world") = lit "hello world"
  /\ removed_count (lit "hello world") = 0.
Proof.
  assert (H : Forall (fun c => ~ denylisted c) (lit "hello world")).
  { repeat constructor; unfold denylisted; simpl; intuition discriminate. }
  split; [exact H|].
  exact (proj1 (Filter_identity_idempotent (lit "hello world")) H).
Defined.

(** C9: the Denylist has exactly eighteen distinct code points, among them
    U+180E, U+200B and U+2007; the membership test of the filter is
    membership in that list, and the filter removes every occurrence of a
    member and no occurrence of any other code point. *)
Theorem Denylist_eighteen :
  List.length INVISIBLE_CHARS = 18%nat
  /\ NoDup INVISIBLE_CHARS
  /\ denylisted 0x180E /\ denylisted 0x200B /\ denylisted 0x2007
  /\ (forall c, is_invisible c = true <-> denylisted c)
  /\ (forall S c, occurrences (cleaned S) c
                  = if is_invisible c then 0%nat else occurrences S c).
Proof.
  split; [reflexivity|].
  split; [apply INVISIBLE_CHARS_NoDup|].
  repeat (split; [unfold denylisted; simpl; tauto|]).
  split; [apply is_invisible_denylisted | apply occurrences_cleaned].
Qed.

(* ===================================================================== *)
(** * Running the program *)
(* ===================================================================== *)

Lemma after_after (w : world) (cs ds : list call) :
  after (after w cs) ds = after w (cs ++ ds).
Proof. unfold after, became. cbn. now rewrite app_assoc. Qed.

Lemma became_after (w : world) (f : filesystem) (cs ds : list call) :
  became (after w cs) f ds = became w f (cs ++ ds).
Proof. unfold after, became. cbn. now rewrite app_assoc. Qed.

Lemma after_became (w : world) (f : filesystem) (cs ds : list call) :
  after (became w f cs) ds = became w f (cs ++ ds).
Proof. unfold after, became. cbn. now rewrite app_assoc. Qed.

Lemma shown_app (cs ds : list call) : shown (cs ++ ds) = shown cs ++ shown ds.
Proof. unfold shown. apply flat_map_app. Qed.

Lemma stdout_after (w : world) (calls : list call) :
  stdout (after w calls) = stdout w ++ shown calls.
Proof. unfold stdout, after, became. cbn [history]. apply shown_app. Qed.

(** The usage message is ASCII: every console can print it. *)
Lemma usage_encodable (w : world) : encodable w usage = true.
Proof. reflexivity. Qed.

Lemma run_ret {R : Type} (r : R) (w : world) : run (Ret r) w ≈ Ret (w, r).
Proof. unfold run. now rewrite interp_state_ret. Qed.

Lemma run_bind {A B : Type} (t : itree osE A) (k : A -> itree osE B)
    (w : world) :
  run (ITree.bind t k) w
  ≈ ITree.bind (run t w) (fun wa => run (k (snd wa)) (fst wa)).
Proof. unfold run. now rewrite interp_state_bind. Qed.

Lemma run_trigger {T : Type} (e : osE T) (w : world) :
  run (ITree.trigger e) w ≈ handle T e w.
Proof. unfold run. now rewrite interp_state_trigger. Qed.

(** A call followed by the rest of the program. *)
Lemma run_call {T R : Type} (e : osE T) (k : T -> itree osE R) (w w' : world)
    (a : T) :
  handle T e w = Ret (w', a) ->
  run (ITree.bind (ITree.trigger e) k) w ≈ run (k a) w'.
Proof.
  intros H. rewrite run_bind, run_trigger, H, bind_ret_l. reflexivity.
Qed.

Lemma run_step {T R : Type} (e : osE T) (k : T -> itree osE R) (w : world) :
  run (ITree.bind (ITree.trigger e) k) w
  ≈ run (k (snd (answer e w))) (fst (answer e w)).
Proof. apply run_call. unfold handle. now destruct (answer e w). Qed.

(** A [print] that goes through, followed by the rest of the program. *)
Lemma run_print {R : Type} (line : str) (k : unit -> itree osE (exn + R))
    (w : world) :
  encodable w line = true ->
  run (try_bind (ITree.trigger (Print line)) k) w
  ≈ run (k tt) (after w [CPrint line]).
Proof.
  intros H. unfold try_bind. rewrite run_step. cbn [answer]. rewrite H.
  reflexivity.
Qed.

(** A [print] that raises ends the program. *)
Lemma run_print_error {R : Type} (line : str)
    (k : unit -> itree osE (exn + R)) (w : world) :
  encodable w line = false ->
  run (try_bind (ITree.trigger (Print line)) k) w
  ≈ Ret (after w [CPrintError line], inl (UnicodeEncodeError line)).
Proof.
  intros H. unfold try_bind. rewrite run_step. cbn [answer]. rewrite H.
  cbn [fst snd]. apply run_ret.
Qed.

Lemma ends_ret {R : Type} (r : R) (w : world) (Q : world -> R -> Prop) :
  Q w r -> ends (run (Ret r) w) Q.
Proof. intros H. exists w, r. split; [apply run_ret | exact H]. Qed.

Lemma ends_eutt {R : Type} (t u : itree void1 (world * R))
    (Q : world -> R -> Prop) :
  t ≈ u -> ends u Q -> ends t Q.
Proof.
  intros Htu [w' [r [Hu HQ]]]. exists w', r.
  split; [now rewrite Htu | exact HQ].
Qed.

(** What a run that ends satisfies, every ended run satisfies. *)
Lemma ends_Leaf {R : Type} (t : itree void1 (world * R))
    (Q : world -> R -> Prop) (w' : world) (r : R) :
  ends t Q -> Leaf (w', r) t -> Q w' r.
Proof.
  intros [w0 [r0 [Ht HQ]]] Hleaf. rewrite Ht in Hleaf.
  apply Leaf_Ret_inv in Hleaf. injection Hleaf as -> ->. exact HQ.
Qed.

(** C8: with any number of command-line arguments other than one
    ([sys.argv] holds the script name and then the arguments), the program
    is the single call that prints the usage message: run from any world,
    it returns normally (the message is ASCII, which every console
    encodes), and the only call it has made is that [print], so the file
    system is neither read, written nor probed; the console shows the
    usage line. *)
Theorem main_usage (argv : list str) (w : world) :
  List.length (tl argv) <> 1%nat ->
  main argv ≈ ITree.trigger (Print usage)
  /\ run (main argv) w ≈ Ret (after w [CPrint usage], inr tt)
  /\ stdout (after w [CPrint usage]) = stdout w ++ usage ++ [10].
Proof.
  intros Hargs.
  assert (Hlen : (len argv =? 2) = false).
  { apply N.eqb_neq. unfold len.
    destruct argv as [|script args]; cbn in *; lia. }
  unfold main. rewrite Hlen. cbn [negb]. split.
  { unfold try_bind. rewrite <- (bind_ret_r (ITree.trigger (Print usage))) at 2.
    apply eutt_eq_bind. intros [e | []]; reflexivity. }
  split; [rewrite (run_print usage _ w (usage_encodable w)); apply run_ret|].
  rewrite stdout_after. unfold shown. cbn [flat_map app].
  now rewrite app_nil_r.
Qed.

Lemma main_usage_witness :
  run (main [lit "scrub_invisible.py"]) demo
  ≈ Ret (after demo [CPrint usage], inr tt)
  /\ run (main [lit "scrub_invisible.py"; lit "notes.txt"; lit "clean.txt"])
       demo
     ≈ Ret (after demo [CPrint usage], inr tt).
Proof.
  split.
  - apply (main_usage [lit "scrub_invisible.py"] demo). simpl. lia.
  - apply (main_usage
             [lit "scrub_invisible.py"; lit "notes.txt"; lit "clean.txt"]
             demo).
    simpl. lia.
Defined.

(** A path that is not a regular file, with a console that can print the
    error message. *)
Lemma run_invalid_input (file_path : str) (w : world) :
  path_isfile (fs w) file_path = false ->
  encodable w (error_message file_path) = true ->
  run (scrub_invisible file_path) w
  ≈ Ret (after w [CIsFile file_path; CPrint (error_message file_path)],
         inr tt).
Proof.
  intros Hfile Henc. unfold scrub_invisible.
  rewrite run_step. cbn [answer fst snd]. rewrite Hfile. cbn [negb].
  rewrite run_print by exact Henc. rewrite run_ret. unfold record.
  rewrite after_after. reflexivity.
Qed.

(** A path that is not a regular file, with a console that cannot print
    the error message: the [print] raises. *)
Lemma run_invalid_input_error (file_path : str) (w : world) :
  path_isfile (fs w) file_path = false ->
  encodable w (error_message file_path) = false ->
  run (scrub_invisible file_path) w
  ≈ Ret (after w [CIsFile file_path; CPrintError (error_message file_path)],
         inl (UnicodeEncodeError (error_message file_path))).
Proof.
  intros Hfile Henc. unfold scrub_invisible.
  rewrite run_step. cbn [answer fst snd]. rewrite Hfile. cbn [negb].
  rewrite run_print_error by exact Henc. unfold record.
  rewrite after_after. reflexivity.
Qed.

(* ===================================================================== *)
(** * The unique path resolver *)
(* ===================================================================== *)

Section Resolver.

Variable base : str.

Lemma run_probe_free (counter : N) (w : world) :
  path_exists (fs w) (new_path base counter) = false ->
  run (probe base counter) w
  ≈ Ret (after w [CExists (new_path base counter)],
         inr (new_path base counter)).
Proof.
  intros Hfree. unfold probe.
  rewrite run_step. cbn [answer fst snd]. rewrite Hfree. apply run_ret.
Qed.

Lemma run_probe_taken (counter : N) (w : world) :
  path_exists (fs w) (new_path base counter) = true ->
  run (probe base counter) w
  ≈ Ret (after w [CExists (new_path base counter)], inl (counter + 1)).
Proof.
  intros Htaken. unfold probe.
  rewrite run_step. cbn [answer fst snd]. rewrite Htaken. apply run_ret.
Qed.

(** One unfolding of the loop. *)
Lemma run_loop_unfold (counter : N) (w : world) :
  run (ITree.iter (probe base) counter) w
  ≈ ITree.bind (run (probe base counter) w)
      (fun wr => match snd wr with
                 | inl next => run (ITree.iter (probe base) next) (fst wr)
                 | inr r => Ret (fst wr, r)
                 end).
Proof.
  rewrite unfold_iter at 1. rewrite run_bind.
  apply eutt_eq_bind. intros [w' [next | r]]; cbn [fst snd].
  - unfold run. rewrite interp_state_tau, tau_eutt. reflexivity.
  - apply run_ret.
Qed.

(** The loop started at [first] returns the first free candidate, having
    probed every candidate up to it, in increasing order. *)
Lemma run_loop (k : nat) :
  forall (first : N) (w : world),
    (forall M, first <= M < first + N.of_nat k ->
               path_exists (fs w) (new_path base M) = true) ->
    path_exists (fs w) (new_path base (first + N.of_nat k)) = false ->
    run (ITree.iter (probe base) first) w
    ≈ Ret (after w (probes base first (S k)),
           new_path base (first + N.of_nat k)).
Proof.
  induction k as [|k IH]; intros first w Htaken Hfree.
  - rewrite N.add_0_r in *. rewrite run_loop_unfold, run_probe_free by assumption.
    rewrite bind_ret_l. reflexivity.
  - rewrite run_loop_unfold, run_probe_taken by (apply Htaken; lia).
    rewrite bind_ret_l. cbn [fst snd].
    replace (first + N.of_nat (S k)) with (first + 1 + N.of_nat k) in * by lia.
    rewrite IH; [| intros M HM; apply Htaken; lia | assumption].
    rewrite after_after. reflexivity.
Qed.

(** A run of the loop that returns has found the least free candidate. *)
Lemma loop_returns (w w' : world) (r : str) :
  Leaf (w', r) (run (ITree.iter (probe base) 1) w) ->
  exists n, 0 < n
    /\ (forall m, 0 < m < n -> path_exists (fs w) (new_path base m) = true)
    /\ path_exists (fs w) (new_path base n) = false
    /\ r = new_path base n.
Proof.
  intros Hleaf.
  pose (RS := fun s : world => fs s = fs w).
  pose (RI := fun i : N =>
    0 < i /\ forall m, 0 < m < i ->
                       path_exists (fs w) (new_path base m) = true).
  pose (RR := fun r : str =>
    exists n, 0 < n
      /\ (forall m, 0 < m < n -> path_exists (fs w) (new_path base m) = true)
      /\ path_exists (fs w) (new_path base n) = false
      /\ r = new_path base n).
  enough (H : prod_pred RS RR (w', r)) by apply H.
  apply (Leaf_interp_state_iter_inv handle (probe base) RS RI RR w 1);
    try assumption.
  - intros s i Hs [Hi Hbelow] sx Hsx. unfold RS in Hs.
    destruct (path_exists (fs w) (new_path base i)) eqn:E.
    + assert (Hrun := run_probe_taken i s). rewrite Hs in Hrun.
      specialize (Hrun E). unfold run in Hrun. rewrite Hrun in Hsx.
      apply Leaf_Ret_inv in Hsx. subst sx. split; cbn.
      * exact Hs.
      * split; [lia|]. intros m Hm.
        destruct (N.eq_dec m i) as [->|Hne]; [exact E | apply Hbelow; lia].
    + assert (Hrun := run_probe_free i s). rewrite Hs in Hrun.
      specialize (Hrun E). unfold run in Hrun. rewrite Hrun in Hsx.
      apply Leaf_Ret_inv in Hsx. subst sx. split; cbn.
      * exact Hs.
      * exists i. repeat split; assumption.
  - reflexivity.
  - split; [lia | intros m Hm; lia].
Qed.

End Resolver.

(** Scanning the candidates up to a bound either meets a least free one or
    finds them all taken. *)
Lemma scan_candidates (f : filesystem) (base : str) (k : nat) :
  (exists l, 0 < l <= N.of_nat k
     /\ (forall m, 0 < m < l -> path_exists f (new_path base m) = true)
     /\ path_exists f (new_path base l) = false)
  \/ (forall m, 0 < m <= N.of_nat k ->
                path_exists f (new_path base m) = true).
Proof.
  induction k as [|k [[l [Hl Hleast]] | Hall]].
  - right. intros m Hm. lia.
  - left. exists l. split; [lia | exact Hleast].
  - destruct (path_exists f (new_path base (N.of_nat (S k)))) eqn:E.
    + right. intros m Hm.
      destruct (N.eq_dec m (N.of_nat (S k))) as [->|Hne];
        [exact E | apply Hall; lia].
    + left. exists (N.of_nat (S k)). split; [lia|]. split; [|exact E].
      intros m Hm. apply Hall. lia.
Qed.

(** Below a free candidate there is a least one. *)
Lemma least_free (f : filesystem) (base : str) (n : N) :
  0 < n ->
  path_exists f (new_path base n) = false ->
  exists l, 0 < l <= n
    /\ (forall m, 0 < m < l -> path_exists f (new_path base m) = true)
    /\ path_exists f (new_path base l) = false.
Proof.
  intros Hn Hfree.
  destruct (scan_candidates f base (N.to_nat n)) as [[l [Hl Hleast]] | Hall].
  - exists l. split; [lia | exact Hleast].
  - rewrite Hall in Hfree by lia. discriminate.
Qed.

Lemma resolver_run (base out : str) (calls : list call) (w : world) :
  resolved (fs w) base out calls ->
  run (get_unique_filename base) w ≈ Ret (after w calls, out).
Proof.
  intros [[Hfree [-> ->]] | [Htaken [n [Hn [Hbelow [Hfree [-> ->]]]]]]];
    unfold get_unique_filename.
  - rewrite run_step. cbn [answer fst snd]. rewrite Hfree. apply run_ret.
  - rewrite run_step. cbn [answer fst snd]. rewrite Htaken. cbn [negb].
    unfold record.
    assert (Hk : n = 1 + N.of_nat (N.to_nat n - 1)) by lia.
    rewrite (run_loop base (N.to_nat n - 1) 1).
    + rewrite after_after, <- Hk.
      replace (S (N.to_nat n - 1)) with (N.to_nat n) by lia. reflexivity.
    + intros m Hm. apply Hbelow. lia.
    + rewrite <- Hk. exact Hfree.
Qed.

(** The path returned is free and every call made is an existence test. *)
Lemma resolved_free (f : filesystem) (base out : str) (calls : list call) :
  resolved f base out calls -> path_exists f out = false /\ written calls = [].
Proof.
  intros [[Hfree [-> ->]] | [_ [n [_ [_ [Hfree [-> ->]]]]]]].
  - split; [assumption | reflexivity].
  - split; [assumption|]. unfold probes. cbn.
    generalize (counters 1 (N.to_nat n)) as l.
    induction l as [|c l IH]; [reflexivity | exact IH].
Qed.

(** A run of the resolver that returns has done what [resolved] says. *)
Lemma resolver_returns (base out : str) (w w' : world) :
  Leaf (w', out) (run (get_unique_filename base) w) ->
  exists calls, resolved (fs w) base out calls /\ w' = after w calls.
Proof.
  intros Hleaf.
  assert (Hres : exists out0 calls, resolved (fs w) base out0 calls).
  { destruct (path_exists (fs w) base) eqn:Ebase.
    - unfold get_unique_filename in Hleaf.
      rewrite run_step in Hleaf. cbn [answer fst snd] in Hleaf.
      rewrite Ebase in Hleaf. cbn [negb] in Hleaf.
      apply loop_returns in Hleaf.
      destruct Hleaf as [n [Hn [Hbelow [Hfree ->]]]].
      exists (new_path base n), (CExists base :: probes base 1 (N.to_nat n)).
      right. split; [assumption|]. exists n. repeat split; assumption.
    - exists base, [CExists base]. left. repeat split; assumption. }
  destruct Hres as [out0 [calls Hres]].
  rewrite (resolver_run base out0 calls w Hres) in Hleaf.
  apply Leaf_Ret_inv in Hleaf. injection Hleaf as -> ->.
  exists calls. split; [assumption | reflexivity].
Qed.

(* ===================================================================== *)
(** * The file pipeline *)
(* ===================================================================== *)

Lemma path_exists_None (f : filesystem) (p : str) :
  path_exists f p = false -> f p = None.
Proof. unfold path_exists. now destruct (f p). Qed.

Lemma written_app (cs ds : list call) :
  written (cs ++ ds) = written cs ++ written ds.
Proof. unfold written. apply flat_map_app. Qed.

Lemma written_scrub_calls (file_path content out : str) (calls : list call) :
  written calls = [] ->
  written (scrub_calls file_path content out calls) = [out].
Proof.
  intros H. unfold scrub_calls. rewrite !written_app, H. reflexivity.
Qed.

Lemma ends_Ret {R : Type} (w : world) (r : R) (Q : world -> R -> Prop) :
  Q w r -> ends (Ret (w, r)) Q.
Proof. intros H. exists w, r. split; [reflexivity | exact H]. Qed.

Lemma summary_encodable_true (w : world) (content out : str) :
  summary_encodable w content out = true <->
  encodable w (original_block content) = true
  /\ encodable w (cleaned_block content) = true
  /\ encodable w (total_line content) = true
  /\ encodable w (saved_line out) = true.
Proof. unfold summary_encodable. rewrite !andb_true_iff. tauto. Qed.

(** The run on a readable file up to the write: the test, the read and
    the resolver. *)
Lemma run_to_write (file_path content out : str) (rcalls : list call)
    (w : world) :
  fs w file_path = Some (RegFile (Some content)) ->
  resolved (fs w) (file_path ++ lit ".si") out rcalls ->
  run (scrub_invisible file_path) w
  ≈ run (closed <-? ITree.trigger (WriteText out (cleaned content)) ;;;
         printed1 <-? ITree.trigger (Print (original_block content)) ;;;
         printed2 <-? ITree.trigger (Print (cleaned_block content)) ;;;
         printed3 <-? ITree.trigger (Print (total_line content)) ;;;
         printed4 <-? ITree.trigger (Print (saved_line out)) ;;;
         Ret (inr tt))
        (after w ([CIsFile file_path; CRead file_path] ++ rcalls)).
Proof.
  intros Hfile Hres. unfold scrub_invisible.
  rewrite run_step. cbn [answer fst snd]. unfold path_isfile. rewrite Hfile.
  cbn [negb]. unfold try_bind at 1.
  rewrite run_step. cbn [answer fst snd]. unfold read_text at 1.
  cbn [fs record after became]. rewrite Hfile.
  rewrite run_bind, (resolver_run _ out rcalls) by exact Hres.
  rewrite bind_ret_l. cbn [fst snd]. unfold record.
  rewrite !after_after. reflexivity.
Qed.

(** The write, when the operating system stores the text at a free path. *)
Lemma run_write_stored {R : Type} (out text : str)
    (k : unit -> itree osE (exn + R)) (w : world) :
  path_exists (fs w) out = false ->
  storage w out text = Stored ->
  run (try_bind (ITree.trigger (WriteText out text)) k) w
  ≈ run (k tt)
        (became w (fs_write (fs w) out (RegFile (Some text)))
           [CWrite out text]).
Proof.
  intros Hfree Hst. unfold try_bind. rewrite run_step. cbn [answer].
  unfold write_text. rewrite (path_exists_None _ _ Hfree), Hst. reflexivity.
Qed.

(** A run on a readable file, when the write is stored and the console can
    print the summary: the cleaned text is saved at the path the resolver
    returns, and the four summary lines are printed. *)
Lemma scrub_invisible_run (file_path content out : str) (calls : list call)
    (w : world) :
  fs w file_path = Some (RegFile (Some content)) ->
  resolved (fs w) (file_path ++ lit ".si") out calls ->
  storage w out (cleaned content) = Stored ->
  summary_encodable w content out = true ->
  run (scrub_invisible file_path) w
  ≈ Ret (became w (fs_write (fs w) out (RegFile (Some (cleaned content))))
           (scrub_calls file_path content out calls),
         inr tt).
Proof.
  intros Hfile Hres Hst Henc.
  apply summary_encodable_true in Henc. destruct Henc as [E1 [E2 [E3 E4]]].
  rewrite (run_to_write _ content out calls w Hfile Hres).
  rewrite run_write_stored;
    [| exact (proj1 (resolved_free _ _ _ _ Hres)) | exact Hst].
  rewrite run_print by exact E1. rewrite run_print by exact E2.
  rewrite run_print by exact E3. rewrite run_print by exact E4.
  rewrite run_ret, became_after, !after_became. unfold scrub_calls.
  rewrite <- !app_assoc. reflexivity.
Qed.

(** A run on a regular file whose bytes do not decode stops at the read. *)
Lemma scrub_invisible_unreadable (file_path : str) (w : world) :
  fs w file_path = Some (RegFile None) ->
  run (scrub_invisible file_path) w
  ≈ Ret (after w [CIsFile file_path; CRead file_path],
         inl (UnicodeDecodeError file_path)).
Proof.
  intros Hfile. unfold scrub_invisible.
  rewrite run_step. cbn [answer fst snd]. unfold path_isfile. rewrite Hfile.
  cbn [negb]. unfold try_bind.
  rewrite run_step. cbn [answer fst snd]. unfold read_text at 1.
  cbn [fs record after became]. rewrite Hfile.
  rewrite run_ret. unfold record. rewrite after_after. reflexivity.
Qed.

Lemma framed_after (file_path : str) (w : world) (calls : list call) :
  written calls = [] -> framed file_path w (after w calls).
Proof.
  intros H. split; [reflexivity|]. split; [reflexivity|].
  exists calls. split; [reflexivity|]. left. split; [exact H | reflexivity].
Qed.

Lemma scrub_invalid_ends (file_path : str) (w : world) :
  path_isfile (fs w) file_path = false ->
  ends (run (scrub_invisible file_path) w) (outcome file_path w).
Proof.
  intros Hnot. destruct (encodable w (error_message file_path)) eqn:Henc.
  - eapply ends_eutt; [apply (run_invalid_input _ w Hnot Henc)|].
    apply ends_Ret. split; [now apply framed_after|].
    intros _. left. repeat split; assumption.
  - eapply ends_eutt; [apply (run_invalid_input_error _ w Hnot Henc)|].
    apply ends_Ret. split; [now apply framed_after | discriminate].
Qed.

Lemma scrub_unreadable_ends (file_path : str) (w : world) :
  fs w file_path = Some (RegFile None) ->
  ends (run (scrub_invisible file_path) w) (outcome file_path w).
Proof.
  intros Hfile.
  eapply ends_eutt; [apply (scrub_invisible_unreadable _ w Hfile)|].
  apply ends_Ret. split; [now apply framed_after | discriminate].
Qed.

(** The world after the write has been tried at the path [out] the
    resolver returned, and some prints after it. *)
Lemma framed_became (file_path content out : str) (rcalls cs : list call)
    (f : filesystem) (w : world) :
  resolved (fs w) (file_path ++ lit ".si") out rcalls ->
  written cs = [] ->
  f = fs w \/ (exists n, f = fs_write (fs w) out n) ->
  framed file_path w
    (became w f (([CIsFile file_path; CRead file_path] ++ rcalls)
                 ++ [CWrite out (cleaned content)] ++ cs)).
Proof.
  intros Hres Hcs Hf. split; [reflexivity|]. split; [reflexivity|].
  eexists. split; [reflexivity|]. right. exists out, rcalls.
  split; [exact Hres|]. split; [|exact Hf].
  rewrite !written_app, Hcs, (proj2 (resolved_free _ _ _ _ Hres)).
  reflexivity.
Qed.

Lemma scrub_readable_ends (file_path content out : str) (rcalls : list call)
    (w : world) :
  fs w file_path = Some (RegFile (Some content)) ->
  resolved (fs w) (file_path ++ lit ".si") out rcalls ->
  ends (run (scrub_invisible file_path) w) (outcome file_path w).
Proof.
  intros Hfile Hres.
  destruct (resolved_free _ _ _ _ Hres) as [Hfree Hwritten].
  eapply ends_eutt; [apply (run_to_write _ content out rcalls w Hfile Hres)|].
  set (pre := [CIsFile file_path; CRead file_path] ++ rcalls).
  destruct (storage w out (cleaned content)) eqn:Hst.
  - (* the text is stored *)
    eapply ends_eutt; [apply run_write_stored; [exact Hfree | exact Hst]|].
    rewrite became_after.
    set (f := fs_write (fs w) out (RegFile (Some (cleaned content)))).
    assert (Hf : f = fs w \/ exists n, f = fs_write (fs w) out n)
      by (right; now eexists).
    destruct (encodable w (original_block content)) eqn:E1.
    2:{ eapply ends_eutt; [apply run_print_error; exact E1|].
        rewrite after_became, <- app_assoc. apply ends_Ret.
        split; [now apply framed_became | discriminate]. }
    eapply ends_eutt; [apply run_print; exact E1|]. rewrite after_became.
    destruct (encodable w (cleaned_block content)) eqn:E2.
    2:{ eapply ends_eutt; [apply run_print_error; exact E2|].
        rewrite after_became, <- !app_assoc. apply ends_Ret.
        split; [now apply framed_became | discriminate]. }
    eapply ends_eutt; [apply run_print; exact E2|]. rewrite after_became.
    destruct (encodable w (total_line content)) eqn:E3.
    2:{ eapply ends_eutt; [apply run_print_error; exact E3|].
        rewrite after_became, <- !app_assoc. apply ends_Ret.
        split; [now apply framed_became | discriminate]. }
    eapply ends_eutt; [apply run_print; exact E3|]. rewrite after_became.
    destruct (encodable w (saved_line out)) eqn:E4.
    2:{ eapply ends_eutt; [apply run_print_error; exact E4|].
        rewrite after_became, <- !app_assoc. apply ends_Ret.
        split; [now apply framed_became | discriminate]. }
    eapply ends_eutt; [apply run_print; exact E4|]. rewrite after_became.
    apply ends_ret. rewrite <- !app_assoc. split.
    + now apply framed_became.
    + intros _. right. exists content, out, rcalls.
      split; [assumption|]. split; [assumption|]. split; [assumption|].
      split; [apply summary_encodable_true; tauto|].
      unfold scrub_calls, pre. rewrite <- !app_assoc. reflexivity.
  - (* [open] raises *)
    unfold try_bind at 1.
    eapply ends_eutt; [rewrite run_step; reflexivity|].
    cbn [answer]. unfold write_text.
    cbn [fs storage after became].
    rewrite (path_exists_None _ _ Hfree), Hst.
    cbn [fst snd]. apply ends_ret.
    split; [|discriminate]. rewrite became_after.
    apply (framed_became file_path content out rcalls [] (fs w) w Hres);
      [reflexivity | now left].
  - (* the write raises *)
    unfold try_bind at 1.
    eapply ends_eutt; [rewrite run_step; reflexivity|].
    cbn [answer]. unfold write_text.
    cbn [fs storage after became].
    rewrite (path_exists_None _ _ Hfree), Hst.
    cbn [fst snd]. apply ends_ret.
    split; [|discriminate]. rewrite became_after.
    apply (framed_became file_path content out rcalls [] _ w Hres);
      [reflexivity | right; now eexists].
Qed.

(** Every run of [scrub_invisible] that ends has the outcome above. *)
Lemma scrub_invisible_returns (file_path : str) (w w' : world)
    (r : exn + unit) :
  Leaf (w', r) (run (scrub_invisible file_path) w) ->
  outcome file_path w w' r.
Proof.
  intros Hleaf.
  destruct (fs w file_path) as [[[content|]|]|] eqn:Hfile.
  - assert (Hres : exists out calls,
               resolved (fs w) (file_path ++ lit ".si") out calls).
    { pose proof Hleaf as H. unfold scrub_invisible in H.
      rewrite run_step in H. cbn [answer fst snd] in H.
      unfold path_isfile in H. rewrite Hfile in H. cbn [negb] in H.
      unfold try_bind at 1 in H. rewrite run_step in H.
      cbn [answer fst snd] in H. unfold read_text at 1 in H.
      cbn [fs record after became] in H. rewrite Hfile in H.
      rewrite run_bind in H. apply Leaf_bind_inv in H.
      destruct H as [[w3 out] [H _]].
      apply resolver_returns in H. destruct H as [calls [H _]].
      exists out, calls. exact H. }
    destruct Hres as [out [calls Hres]].
    exact (ends_Leaf _ _ _ _
             (scrub_readable_ends _ content out calls w Hfile Hres) Hleaf).
  - exact (ends_Leaf _ _ _ _ (scrub_unreadable_ends _ w Hfile) Hleaf).
  - refine (ends_Leaf _ _ _ _ (scrub_invalid_ends _ w _) Hleaf).
    unfold path_isfile. now rewrite Hfile.
  - refine (ends_Leaf _ _ _ _ (scrub_invalid_ends _ w _) Hleaf).
    unfold path_isfile. now rewrite Hfile.
Qed.

Lemma new_path_si (file_path : str) (n : N) :
  new_path (file_path ++ lit ".si") n
  = file_path ++ lit ".si." ++ str_of_int n.
Proof. unfold new_path. rewrite <- app_assoc. reflexivity. Qed.

Lemma resolved_output_path (f : filesystem) (file_path out : str)
    (calls : list call) :
  resolved f (file_path ++ lit ".si") out calls ->
  output_path_of file_path out.
Proof.
  intros [[_ [-> _]] | [_ [n [Hn [_ [_ [-> _]]]]]]].
  - now left.
  - right. exists n. split; [assumption | apply new_path_si].
Qed.

(** An output path is longer than the input path it extends. *)
Lemma output_path_longer (file_path out : str) :
  output_path_of file_path out ->
  (List.length file_path < List.length out)%nat.
Proof.
  intros [-> | [n [_ ->]]]; rewrite !length_app; cbn; lia.
Qed.

Lemma str_eqb_neq (a b : str) : a <> b -> str_eqb a b = false.
Proof. intros H. unfold str_eqb. now destruct (list_eq_dec N.eq_dec a b). Qed.

Lemma demo_resolved :
  resolved demo_fs (lit "notes.txt.si") (lit "notes.txt.si.2")
    [ CExists (lit "notes.txt.si")
    ; CExists (lit "notes.txt.si.1")
    ; CExists (lit "notes.txt.si.2") ].
Proof.
  right. split; [reflexivity|]. exists 2.
  split; [lia|]. split; [|repeat split; reflexivity].
  intros m Hm. assert (m = 1) as -> by lia. reflexivity.
Qed.

Lemma demo_run :
  Leaf (demo_scrubbed, inr tt) (run (scrub_invisible (lit "notes.txt")) demo).
Proof.
  rewrite (scrub_invisible_run (lit "notes.txt") [65; 0x00A0; 66]
             (lit "notes.txt.si.2") _ demo eq_refl demo_resolved
             eq_refl eq_refl).
  apply Leaf_Ret.
Qed.

(** C3: if no entry exists at the base path, the resolver returns it
    after that one test; otherwise, with [n] the smallest positive integer
    such that no entry exists at [base.n], it tests [base.1], [base.2], ...
    up to [base.n], in that order, and returns [base.n].  The file system
    is left as it was. *)
Theorem get_unique_filename_spec (base : str) (w : world) :
  (path_exists (fs w) base = false ->
     run (get_unique_filename base) w ≈ Ret (after w [CExists base], base))
  /\ (forall n,
        path_exists (fs w) base = true ->
        0 < n ->
        (forall m, 0 < m < n ->
                   path_exists (fs w) (new_path base m) = true) ->
        path_exists (fs w) (new_path base n) = false ->
        run (get_unique_filename base) w
        ≈ Ret (after w (CExists base :: probes base 1 (N.to_nat n)),
               new_path base n)).
Proof.
  split.
  - intros Hfree. apply resolver_run. left. repeat split; assumption.
  - intros n Htaken Hn Hbelow Hfree. apply resolver_run. right.
    split; [assumption|]. exists n. repeat split; assumption.
Qed.

Lemma get_unique_filename_spec_witness :
  run (get_unique_filename (lit "clean.txt.si")) demo
  ≈ Ret (after demo [CExists (lit "clean.txt.si")], lit "clean.txt.si")
  /\ run (get_unique_filename (lit "notes.txt.si")) demo
     ≈ Ret (after demo [ CExists (lit "notes.txt.si")
                       ; CExists (lit "notes.txt.si.1")
                       ; CExists (lit "notes.txt.si.2") ],
            lit "notes.txt.si.2").
Proof.
  split.
  - apply (proj1 (get_unique_filename_spec (lit "clean.txt.si") demo)).
    reflexivity.
  - apply (proj2 (get_unique_filename_spec (lit "notes.txt.si") demo) 2).
    + reflexivity.
    + lia.
    + intros m Hm. assert (m = 1) as -> by lia. reflexivity.
    + reflexivity.
Defined.

(** Conversely, a run of the resolver returns only a path with no existing
    entry, so it returns only if some candidate is free. *)
Lemma get_unique_filename_returns_free (base out : str) (w w' : world) :
  Leaf (w', out) (run (get_unique_filename base) w) ->
  path_exists (fs w) out = false
  /\ (out = base \/ exists n, 0 < n /\ out = new_path base n).
Proof.
  intros Hleaf. apply resolver_returns in Hleaf.
  destruct Hleaf as [calls [Hres _]].
  split; [eapply resolved_free, Hres|].
  destruct Hres as [[_ [-> _]] | [_ [n [Hn [_ [_ [-> _]]]]]]].
  - now left.
  - right. now exists n.
Qed.

(** C7: whenever some candidate among [base], [base.1], [base.2], ... has
    no existing entry, the run of the resolver returns: it yields a path
    with no existing entry and a world whose file system is unchanged. *)
Theorem get_unique_filename_terminates (base : str) (w : world) :
  (path_exists (fs w) base = false
   \/ exists n, 0 < n /\ path_exists (fs w) (new_path base n) = false) ->
  exists (calls : list call) (r : str),
    run (get_unique_filename base) w ≈ Ret (after w calls, r)
    /\ path_exists (fs w) r = false.
Proof.
  intros Hsome.
  assert (Hres : exists out calls, resolved (fs w) base out calls).
  { destruct (path_exists (fs w) base) eqn:Ebase.
    - destruct Hsome as [Hfree | [n [Hn Hfree]]]; [discriminate|].
      destruct (least_free (fs w) base n Hn Hfree)
        as [l [Hl [Hbelow Hlfree]]].
      exists (new_path base l), (CExists base :: probes base 1 (N.to_nat l)).
      right. split; [assumption|]. exists l.
      repeat split; try assumption; lia.
    - exists base, [CExists base]. left. repeat split; assumption. }
  destruct Hres as [out [calls Hres]].
  exists calls, out. split.
  - now apply resolver_run.
  - eapply resolved_free, Hres.
Qed.

Lemma get_unique_filename_terminates_witness :
  exists (calls : list call) (r : str),
    run (get_unique_filename (lit "notes.txt.si")) demo
    ≈ Ret (after demo calls, r)
    /\ path_exists (fs demo) r = false.
Proof.
  apply (get_unique_filename_terminates (lit "notes.txt.si") demo).
  right. exists 7. split; [lia | reflexivity].
Defined.

(** C4: for every run on a regular file that returns normally, exactly one
    path has been opened for writing.  It is the input path with [.si]
    appended when no entry exists there; otherwise it is the input path
    with [.si.n] appended, for the smallest positive [n] such that no
    entry exists at that path.  The file at that path holds the cleaned
    text. *)
Theorem scrub_invisible_output_path (file_path : str) (w w' : world) :
  Leaf (w', inr tt) (run (scrub_invisible file_path) w) ->
  path_isfile (fs w) file_path = true ->
  exists (out content : str) (calls : list call),
    history w' = history w ++ calls
    /\ written calls = [out]
    /\ fs w file_path = Some (RegFile (Some content))
    /\ fs w' = fs_write (fs w) out (RegFile (Some (cleaned content)))
    /\ (path_exists (fs w) (file_path ++ lit ".si") = false ->
        out = file_path ++ lit ".si")
    /\ (path_exists (fs w) (file_path ++ lit ".si") = true ->
        exists n, 0 < n
          /\ out = file_path ++ lit ".si." ++ str_of_int n
          /\ path_exists (fs w) out = false
          /\ forall m, 0 < m < n ->
               path_exists (fs w) (file_path ++ lit ".si." ++ str_of_int m)
               = true).
Proof.
  intros Hleaf Hisfile.
  apply scrub_invisible_returns in Hleaf.
  destruct (proj2 Hleaf eq_refl) as [[Hnot _] | Hsaved]; [congruence|].
  destruct Hsaved as [content [out [calls [Hfile [Hres [_ [_ ->]]]]]]].
  exists out, content, (scrub_calls file_path content out calls).
  split; [reflexivity|].
  split; [apply written_scrub_calls; eapply resolved_free, Hres|].
  split; [assumption|]. split; [reflexivity|].
  destruct Hres as [[Hfree [-> _]] | [Htaken [n [Hn [Hbelow [Hfree [-> _]]]]]]].
  - split; [reflexivity | congruence].
  - split; [congruence|]. intros _. exists n. rewrite <- new_path_si.
    repeat split; try assumption.
    intros m Hm. rewrite <- new_path_si. now apply Hbelow.
Qed.

Lemma scrub_invisible_output_path_witness :
  exists (out content : str) (calls : list call),
    history demo_scrubbed = history demo ++ calls
    /\ written calls = [out]
    /\ fs demo (lit "notes.txt") = Some (RegFile (Some content))
    /\ fs demo_scrubbed
       = fs_write (fs demo) out (RegFile (Some (cleaned content)))
    /\ (path_exists (fs demo) (lit "notes.txt" ++ lit ".si") = false ->
        out = lit "notes.txt" ++ lit ".si")
    /\ (path_exists (fs demo) (lit "notes.txt" ++ lit ".si") = true ->
        exists n, 0 < n
          /\ out = lit "notes.txt" ++ lit ".si." ++ str_of_int n
          /\ path_exists (fs demo) out = false
          /\ forall m, 0 < m < n ->
               path_exists (fs demo)
                 (lit "notes.txt" ++ lit ".si." ++ str_of_int m) = true).
Proof.
  apply (scrub_invisible_output_path (lit "notes.txt") demo demo_scrubbed).
  - exact demo_run.
  - reflexivity.
Defined.

(** C5, as stated, fails: [surrogate_path] names no file, and on a UTF-8
    console the [print] of the error message, which quotes the path,
    raises [UnicodeEncodeError]; the run ends with that exception, and no
    run on that path returns normally. *)
Lemma scrub_invisible_invalid_input_crash :
  path_isfile (fs demo) surrogate_path = false
  /\ run (scrub_invisible surrogate_path) demo
     ≈ Ret (after demo [ CIsFile surrogate_path
                       ; CPrintError (error_message surrogate_path) ],
            inl (UnicodeEncodeError (error_message surrogate_path)))
  /\ ~ (exists w', Leaf (w', inr tt)
                     (run (scrub_invisible surrogate_path) demo)).
Proof.
  assert (Hrun := run_invalid_input_error surrogate_path demo eq_refl eq_refl).
  split; [reflexivity|]. split; [exact Hrun|].
  intros [w' Hleaf]. rewrite Hrun in Hleaf.
  apply Leaf_Ret_inv in Hleaf. discriminate Hleaf.
Qed.

(** C5, amended: when the input path does not name an existing regular
    file, no run opens anything for writing and every run that ends leaves
    the file system as it was; and when [sys.stdout] can encode the error
    message, which quotes the path, the run prints it after the
    [os.path.isfile] test and returns normally, the console showing the
    error line. *)
Theorem scrub_invisible_invalid_input (file_path : str) (w : world) :
  path_isfile (fs w) file_path = false ->
  (encodable w (error_message file_path) = true ->
   run (scrub_invisible file_path) w
   ≈ Ret (after w [CIsFile file_path; CPrint (error_message file_path)],
          inr tt)
   /\ stdout (after w [CIsFile file_path; CPrint (error_message file_path)])
      = stdout w ++ error_message file_path ++ [10])
  /\ (forall (w' : world) (r : exn + unit),
        Leaf (w', r) (run (scrub_invisible file_path) w) ->
        fs w' = fs w
        /\ exists calls, history w' = history w ++ calls
                         /\ written calls = []).
Proof.
  intros Hnot. split.
  - intros Henc. split; [now apply run_invalid_input|].
    rewrite stdout_after. unfold shown. cbn [flat_map app].
    now rewrite app_nil_r.
  - intros w' r Hleaf.
    destruct (encodable w (error_message file_path)) eqn:Henc.
    + rewrite (run_invalid_input _ w Hnot Henc) in Hleaf.
      apply Leaf_Ret_inv in Hleaf. injection Hleaf as -> ->.
      split; [reflexivity|]. eexists. split; reflexivity.
    + rewrite (run_invalid_input_error _ w Hnot Henc) in Hleaf.
      apply Leaf_Ret_inv in Hleaf. injection Hleaf as -> ->.
      split; [reflexivity|]. eexists. split; reflexivity.
Qed.

Lemma scrub_invisible_invalid_input_witness :
  run (scrub_invisible (lit "missing.txt")) demo
  ≈ Ret (after demo [ CIsFile (lit "missing.txt")
                    ; CPrint (error_message (lit "missing.txt")) ], inr tt)
  /\ run (scrub_invisible (lit "docs")) demo
     ≈ Ret (after demo [ CIsFile (lit "docs")
                       ; CPrint (error_message (lit "docs")) ], inr tt).
Proof.
  split.
  - apply (proj1 (scrub_invisible_invalid_input (lit "missing.txt") demo
                    eq_refl)).
    reflexivity.
  - apply (proj1 (scrub_invisible_invalid_input (lit "docs") demo eq_refl)).
    reflexivity.
Defined.

(** C10: every run that ends, normally or with an exception, leaves the
    entry at the input path as it was.  Each path it has opened for writing
    is the input path with [.si] or with [.si.n] appended, so it is longer
    than the input path and differs from it, and every other entry of the
    file system is as it was. *)
Theorem scrub_invisible_input_untouched (file_path : str) (w w' : world)
    (r : exn + unit) :
  Leaf (w', r) (run (scrub_invisible file_path) w) ->
  fs w' file_path = fs w file_path
  /\ exists calls,
       history w' = history w ++ calls
       /\ forall q, In q (written calls) ->
            output_path_of file_path q
            /\ (List.length file_path < List.length q)%nat
            /\ q <> file_path
            /\ forall q', q' <> q -> fs w' q' = fs w q'.
Proof.
  intros Hleaf. apply scrub_invisible_returns in Hleaf.
  destruct Hleaf as [[_ [_ [calls [Hhist Hcases]]]] _].
  destruct Hcases as [[Hwritten Hfs] | [out [rcalls [Hres [Hwritten Hfs]]]]].
  - split; [now rewrite Hfs|]. exists calls. split; [exact Hhist|].
    rewrite Hwritten. intros q [].
  - assert (Hout := resolved_output_path _ _ _ _ Hres).
    assert (Hlen := output_path_longer _ _ Hout).
    assert (Hne : file_path <> out) by (intros ->; lia).
    assert (Hother : forall q', q' <> out -> fs w' q' = fs w q').
    { intros q' Hq'. destruct Hfs as [-> | [n ->]]; [reflexivity|].
      unfold fs_write. now rewrite (str_eqb_neq _ _ Hq'). }
    split; [now apply Hother|].
    exists calls. split; [exact Hhist|]. rewrite Hwritten.
    intros q [<- | []]. repeat split; try assumption. congruence.
Qed.

Lemma scrub_invisible_input_untouched_witness :
  fs demo_scrubbed (lit "notes.txt") = fs demo (lit "notes.txt")
  /\ exists calls,
       history demo_scrubbed = history demo ++ calls
       /\ forall q, In q (written calls) ->
            output_path_of (lit "notes.txt") q
            /\ (List.length (lit "notes.txt") < List.length q)%nat
            /\ q <> lit "notes.txt"
            /\ forall q', q' <> q -> fs demo_scrubbed q' = fs demo q'.
Proof.
  apply (scrub_invisible_input_untouched (lit "notes.txt") demo demo_scrubbed
           (inr tt)).
  exact demo_run.
Defined.

(* ===================================================================== *)
(** * Termination on a finite file system *)
(* ===================================================================== *)

Lemma str_of_uint_inj (a b : Decimal.uint) :
  str_of_uint a = str_of_uint b -> a = b.
Proof.
  revert b. induction a as [|a IH|a IH|a IH|a IH|a IH|a IH|a IH|a IH|a IH|a IH];
    intros [|b|b|b|b|b|b|b|b|b|b] H; cbn in H;
    try reflexivity; try discriminate H;
    injection H as H; f_equal; now apply IH.
Qed.

Lemma str_of_int_inj (m n : N) : str_of_int m = str_of_int n -> m = n.
Proof.
  intros H. now apply DecimalN.Unsigned.to_uint_inj, str_of_uint_inj.
Qed.

(** Distinct counters give distinct candidates. *)
Lemma new_path_inj (base : str) (m n : N) :
  new_path base m = new_path base n -> m = n.
Proof.
  unfold new_path. intros H.
  apply app_inv_head, app_inv_head in H. now apply str_of_int_inj.
Qed.

Lemma In_counters (k : nat) :
  forall first m, In m (counters first k) <-> first <= m < first + N.of_nat k.
Proof.
  induction k as [|k IH]; intros first m; cbn [counters In].
  - lia.
  - rewrite IH. lia.
Qed.

Lemma counters_NoDup (k : nat) : forall first, NoDup (counters first k).
Proof.
  induction k as [|k IH]; intros first; cbn [counters]; constructor.
  - rewrite In_counters. lia.
  - apply IH.
Qed.

Lemma counters_length (k : nat) :
  forall first, List.length (counters first k) = k.
Proof.
  induction k as [|k IH]; intros first; cbn [counters List.length];
    [reflexivity | now rewrite IH].
Qed.

Lemma candidates_NoDup (base : str) (l : list N) :
  NoDup l -> NoDup (List.map (new_path base) l).
Proof.
  induction 1 as [|c l Hnotin _ IH]; cbn [List.map]; constructor.
  - intros Hin. apply in_map_iff in Hin. destruct Hin as [d [Heq Hd]].
    apply new_path_inj in Heq. now subst.
  - exact IH.
Qed.

(** A finite file system cannot hold every candidate. *)
Lemma finite_fs_free_candidate (f : filesystem) (base : str) :
  finite_fs f ->
  exists n, 0 < n /\ path_exists f (new_path base n) = false.
Proof.
  intros [paths Hpaths].
  pose (cands := counters 1 (S (List.length paths))).
  destruct (forallb (fun c => path_exists f (new_path base c)) cands) eqn:E.
  - exfalso. rewrite forallb_forall in E.
    assert (Hincl : incl (List.map (new_path base) cands) paths).
    { intros q Hq. apply in_map_iff in Hq. destruct Hq as [c [<- Hc]].
      apply Hpaths, E, Hc. }
    assert (Hnd : NoDup (List.map (new_path base) cands)).
    { apply candidates_NoDup, counters_NoDup. }
    apply (NoDup_incl_length Hnd) in Hincl.
    unfold cands in Hincl. rewrite length_map, counters_length in Hincl. lia.
  - assert (Hex : exists c, In c cands
                    /\ path_exists f (new_path base c) = false).
    { revert E. generalize cands as l.
      induction l as [|a l IH]; cbn [forallb]; intros E; [discriminate|].
      apply andb_false_iff in E. destruct E as [E | E].
      - exists a. split; [now left | exact E].
      - destruct (IH E) as [c [Hc Hfree]].
        exists c. split; [now right | exact Hfree]. }
    destruct Hex as [c [Hc Hfree]]. apply In_counters in Hc.
    exists c. split; [lia | exact Hfree].
Qed.

(** On a finite file system the resolver always returns. *)
Lemma get_unique_filename_finite (base : str) (w : world) :
  finite_fs (fs w) ->
  exists (calls : list call) (out : str),
    resolved (fs w) base out calls
    /\ run (get_unique_filename base) w ≈ Ret (after w calls, out).
Proof.
  intros Hfin.
  assert (Hres : exists out calls, resolved (fs w) base out calls).
  { destruct (path_exists (fs w) base) eqn:Ebase.
    - destruct (finite_fs_free_candidate (fs w) base Hfin) as [n [Hn Hfree]].
      destruct (least_free (fs w) base n Hn Hfree)
        as [l [Hl [Hbelow Hlfree]]].
      exists (new_path base l), (CExists base :: probes base 1 (N.to_nat l)).
      right. split; [assumption|]. exists l.
      repeat split; try assumption; lia.
    - exists base, [CExists base]. left. repeat split; assumption. }
  destruct Hres as [out [calls Hres]].
  exists calls, out. split; [assumption | now apply resolver_run].
Qed.

(** So on a finite file system every run of [scrub_invisible] ends. *)
Lemma scrub_invisible_ends (file_path : str) (w : world) :
  finite_fs (fs w) ->
  exists (w' : world) (r : exn + unit),
    run (scrub_invisible file_path) w ≈ Ret (w', r).
Proof.
  intros Hfin.
  assert (H : ends (run (scrub_invisible file_path) w) (outcome file_path w)).
  { destruct (fs w file_path) as [[[content|]|]|] eqn:Hfile.
    - destruct (get_unique_filename_finite (file_path ++ lit ".si") w Hfin)
        as [calls [out [Hres _]]].
      now apply (scrub_readable_ends _ content out calls).
    - now apply scrub_unreadable_ends.
    - apply scrub_invalid_ends. unfold path_isfile. now rewrite Hfile.
    - apply scrub_invalid_ends. unfold path_isfile. now rewrite Hfile. }
  destruct H as [w' [r [H _]]]. now exists w', r.
Qed.

(** The second scenario of the specification: a file without invisible
    characters is copied to [<input>.si] and the count reported is 0. *)
Example main_on_clean_file :
  run (main [lit "scrub_invisible.py"; lit "clean.txt"]) demo
  ≈ Ret (became demo
           (fs_write demo_fs (lit "clean.txt.si")
              (RegFile (Some (lit "hello world"))))
           (scrub_calls (lit "clean.txt") (lit "hello world")
              (lit "clean.txt.si") [CExists (lit "clean.txt.si")]),
         inr tt).
Proof.
  change (main [lit "scrub_invisible.py"; lit "clean.txt"])
    with (scrub_invisible (lit "clean.txt")).
  apply (scrub_invisible_run (lit "clean.txt") (lit "hello world")
           (lit "clean.txt.si") [CExists (lit "clean.txt.si")] demo eq_refl);
    [|reflexivity|reflexivity].
  left. repeat split; reflexivity.
Qed.

(* ===================================================================== *)
(** * More on the filter *)
(* ===================================================================== *)

(** X5: the filter works character by character, so it distributes over
    concatenation: the output of [a ++ b] is the output of [a] followed by
    the output of [b], and the removed counts add up. *)
Theorem Filter_app (a b : str) :
  cleaned (a ++ b) = cleaned a ++ cleaned b
  /\ removed_count (a ++ b) = removed_count a + removed_count b.
Proof.
  split.
  - rewrite !cleaned_filter. apply filter_app.
  - rewrite !removed_count_filter, filter_app. unfold len.
    rewrite length_app. lia.
Qed.

(** X6: a removed count of 0 is reported exactly when the output equals the
    input, and exactly when the input has no denylisted character. *)
Theorem Filter_zero_iff (S : str) :
  (removed_count S = 0 <-> cleaned S = S)
  /\ (removed_count S = 0 <-> Forall (fun c => ~ denylisted c) S).
Proof.
  assert (Hclean : removed_count S = 0 -> Forall (fun c => ~ denylisted c) S).
  { induction S as [|c S IH]; intros H; [constructor|].
    rewrite removed_count_cons in H. destruct (is_invisible c) eqn:E; [lia|].
    constructor; [now apply is_invisible_not_denylisted | now apply IH]. }
  split; split.
  - intros H. now apply cleaned_id, Hclean.
  - intros H. pose proof (length_partition S) as HL. rewrite H in HL. lia.
  - exact Hclean.
  - intros H. now apply cleaned_id.
Qed.

Lemma denylisted_ge_A0 (c : codepoint) : denylisted c -> 0xA0 <= c.
Proof.
  unfold denylisted, INVISIBLE_CHARS. cbn [In].
  intros H. repeat (destruct H as [<- | H]; [lia|]). destruct H.
Qed.

(** X7: the smallest denylisted code point is U+00A0, so a text whose code
    points are all below it (any ASCII text, with its spaces, tabs and line
    ends) goes through the filter unchanged, with count 0. *)
Theorem Filter_below_A0 (S : str) :
  Forall (fun c => c < 0xA0) S ->
  cleaned S = S /\ removed_count S = 0.
Proof.
  intros H. apply cleaned_id. apply Forall_forall. intros c Hc Hden.
  rewrite Forall_forall in H. specialize (H c Hc).
  apply denylisted_ge_A0 in Hden. lia.
Qed.

Lemma Filter_below_A0_witness :
  Forall (fun c => c < 0xA0) [9; 10; 13; 32; 65; 126]
  /\ cleaned [9; 10; 13; 32; 65; 126] = [9; 10; 13; 32; 65; 126]
  /\ removed_count [9; 10; 13; 32; 65; 126] = 0.
Proof.
  assert (H : Forall (fun c => c < 0xA0) [9; 10; 13; 32; 65; 126]).
  { repeat constructor. }
  split; [exact H|].
  exact (Filter_below_A0 [9; 10; 13; 32; 65; 126] H).
Defined.

(* ===================================================================== *)
(** * More on the unique path resolver *)
(* ===================================================================== *)

Lemma probes_are_probes (base : str) (first : N) (k : nat) :
  Forall is_probe (probes base first k).
Proof.
  unfold probes. apply Forall_forall. intros c Hc.
  apply in_map_iff in Hc. destruct Hc as [n [<- _]]. now exists (new_path base n).
Qed.

Lemma resolved_probes (f : filesystem) (base out : str) (calls : list call) :
  resolved f base out calls -> Forall is_probe calls.
Proof.
  intros [[_ [_ ->]] | [_ [n [_ [_ [_ [_ ->]]]]]]].
  - repeat constructor. now exists base.
  - constructor; [now exists base | apply probes_are_probes].
Qed.

Lemma probes_length (base : str) (first : N) (k : nat) :
  List.length (probes base first k) = k.
Proof. unfold probes. now rewrite length_map, counters_length. Qed.

Lemma str_eqb_refl (a : str) : str_eqb a a = true.
Proof. unfold str_eqb. now destruct (list_eq_dec N.eq_dec a a). Qed.

Lemma str_eqb_true (a b : str) : str_eqb a b = true -> a = b.
Proof.
  unfold str_eqb. now destruct (list_eq_dec N.eq_dec a b).
Qed.

Lemma demo_resolver_run :
  Leaf (after demo [ CExists (lit "notes.txt.si")
                   ; CExists (lit "notes.txt.si.1")
                   ; CExists (lit "notes.txt.si.2") ],
        lit "notes.txt.si.2")
       (run (get_unique_filename (lit "notes.txt.si")) demo).
Proof.
  rewrite (resolver_run _ _ _ demo demo_resolved). apply Leaf_Ret.
Qed.

Lemma demo_paths_cover (q : str) :
  path_exists (fs demo) q = true -> In q demo_paths.
Proof.
  unfold path_exists, demo, demo_fs, demo_paths. cbn [fs In].
  repeat (destruct (str_eqb q _) eqn:E;
          [apply str_eqb_true in E; intros _; rewrite <- E; auto 10
          | clear E]).
  discriminate.
Qed.

(** X1: whatever a run of the resolver returns is a path with no existing
    entry, and it is the base path or one of its numbered candidates; the
    run has made only [os.path.exists] tests and has left the file system
    as it was. *)
Theorem get_unique_filename_sound (base out : str) (w w' : world) :
  Leaf (w', out) (run (get_unique_filename base) w) ->
  path_exists (fs w) out = false
  /\ (out = base \/ exists n, 0 < n /\ out = new_path base n)
  /\ fs w' = fs w
  /\ exists calls, history w' = history w ++ calls /\ Forall is_probe calls.
Proof.
  intros Hleaf. apply resolver_returns in Hleaf.
  destruct Hleaf as [calls [Hres ->]].
  split; [eapply resolved_free, Hres|].
  split.
  - destruct Hres as [[_ [-> _]] | [_ [n [Hn [_ [_ [-> _]]]]]]].
    + now left.
    + right. now exists n.
  - split; [reflexivity|]. exists calls.
    split; [reflexivity | eapply resolved_probes, Hres].
Qed.

Lemma get_unique_filename_sound_witness :
  path_exists (fs demo) (lit "notes.txt.si.2") = false
  /\ (lit "notes.txt.si.2" = lit "notes.txt.si"
      \/ exists n, 0 < n
           /\ lit "notes.txt.si.2" = new_path (lit "notes.txt.si") n)
  /\ fs (after demo [ CExists (lit "notes.txt.si")
                    ; CExists (lit "notes.txt.si.1")
                    ; CExists (lit "notes.txt.si.2") ]) = fs demo
  /\ exists calls,
       history (after demo [ CExists (lit "notes.txt.si")
                           ; CExists (lit "notes.txt.si.1")
                           ; CExists (lit "notes.txt.si.2") ])
       = history demo ++ calls
       /\ Forall is_probe calls.
Proof.
  apply (get_unique_filename_sound (lit "notes.txt.si") (lit "notes.txt.si.2")
           demo).
  exact demo_resolver_run.
Defined.

(** X2: while entries exist at the base path and at the candidates
    numbered 1 to [n], the resolver returns none of them: whatever a run
    returns is a candidate numbered above [n], and the run has made at
    least [n + 2] existence tests. *)
Theorem get_unique_filename_skips_taken (base out : str) (n : N)
    (w w' : world) :
  path_exists (fs w) base = true ->
  (forall m, 0 < m <= n -> path_exists (fs w) (new_path base m) = true) ->
  Leaf (w', out) (run (get_unique_filename base) w) ->
  exists (m : N) (calls : list call),
    n < m
    /\ out = new_path base m
    /\ history w' = history w ++ calls
    /\ Forall is_probe calls
    /\ (N.to_nat n + 2 <= List.length calls)%nat.
Proof.
  intros Hbase Htaken Hleaf.
  apply resolver_returns in Hleaf. destruct Hleaf as [calls [Hres ->]].
  assert (Hprobes := resolved_probes _ _ _ _ Hres).
  destruct Hres as [[Hfree _] | [_ [m [Hm [_ [Hfree [-> ->]]]]]]];
    [congruence|].
  assert (Hnm : n < m).
  { destruct (N.lt_ge_cases n m) as [H | H]; [exact H|].
    rewrite Htaken in Hfree by lia. discriminate. }
  exists m, (CExists base :: probes base 1 (N.to_nat m)).
  repeat split; try assumption.
  cbn [List.length]. rewrite probes_length. lia.
Qed.

Lemma get_unique_filename_skips_taken_witness :
  exists (m : N) (calls : list call),
    1 < m
    /\ lit "notes.txt.si.2" = new_path (lit "notes.txt.si") m
    /\ history (after demo [ CExists (lit "notes.txt.si")
                           ; CExists (lit "notes.txt.si.1")
                           ; CExists (lit "notes.txt.si.2") ])
       = history demo ++ calls
    /\ Forall is_probe calls
    /\ (N.to_nat 1 + 2 <= List.length calls)%nat.
Proof.
  apply (get_unique_filename_skips_taken (lit "notes.txt.si")
           (lit "notes.txt.si.2") 1 demo).
  - reflexivity.
  - intros m Hm. assert (m = 1) as -> by lia. reflexivity.
  - exact demo_resolver_run.
Defined.

(** X4: the numbered candidates of a base path are pairwise distinct, and
    none of them is the base path itself. *)
Theorem new_path_distinct (base : str) (m n : N) :
  (new_path base m = new_path base n <-> m = n)
  /\ new_path base n <> base.
Proof.
  split; [split; [apply new_path_inj | now intros ->]|].
  unfold new_path. intros H.
  apply (f_equal (@List.length codepoint)) in H.
  rewrite !length_app in H. cbn in H. lia.
Qed.

(** X8: when the candidate numbered [n] has no existing entry, the resolver
    returns after at most [n + 1] existence tests. *)
Theorem get_unique_filename_probe_bound (base : str) (n : N) (w : world) :
  0 < n ->
  path_exists (fs w) (new_path base n) = false ->
  exists (calls : list call) (out : str),
    run (get_unique_filename base) w ≈ Ret (after w calls, out)
    /\ Forall is_probe calls
    /\ (List.length calls <= S (N.to_nat n))%nat.
Proof.
  intros Hn Hfree.
  destruct (path_exists (fs w) base) eqn:Ebase.
  - destruct (least_free (fs w) base n Hn Hfree) as [l [Hl [Hbelow Hlfree]]].
    exists (CExists base :: probes base 1 (N.to_nat l)), (new_path base l).
    split; [|split].
    + apply resolver_run. right. split; [assumption|]. exists l.
      repeat split; try assumption; lia.
    + constructor; [now exists base | apply probes_are_probes].
    + cbn [List.length]. rewrite probes_length. lia.
  - exists [CExists base], base. split; [|split].
    + apply resolver_run. left. repeat split; assumption.
    + repeat constructor. now exists base.
    + cbn. lia.
Qed.

Lemma get_unique_filename_probe_bound_witness :
  exists (calls : list call) (out : str),
    run (get_unique_filename (lit "notes.txt.si")) demo
    ≈ Ret (after demo calls, out)
    /\ Forall is_probe calls
    /\ (List.length calls <= S (N.to_nat 9))%nat.
Proof.
  apply (get_unique_filename_probe_bound (lit "notes.txt.si") 9 demo).
  - lia.
  - reflexivity.
Defined.

(** Among the first [length paths + 1] candidates, one is not in [paths]. *)
Lemma free_candidate_below (f : filesystem) (base : str) (paths : list str) :
  (forall q, path_exists f q = true -> In q paths) ->
  exists n, 0 < n <= N.of_nat (S (List.length paths))
            /\ path_exists f (new_path base n) = false.
Proof.
  intros Hpaths.
  pose (cands := counters 1 (S (List.length paths))).
  destruct (forallb (fun c => path_exists f (new_path base c)) cands) eqn:E.
  - exfalso. rewrite forallb_forall in E.
    assert (Hincl : incl (List.map (new_path base) cands) paths).
    { intros q Hq. apply in_map_iff in Hq. destruct Hq as [c [<- Hc]].
      apply Hpaths, E, Hc. }
    apply (NoDup_incl_length
             (candidates_NoDup base cands (counters_NoDup _ 1))) in Hincl.
    unfold cands in Hincl. rewrite length_map, counters_length in Hincl. lia.
  - assert (Hex : exists c, In c cands
                    /\ path_exists f (new_path base c) = false).
    { revert E. generalize cands as l.
      induction l as [|a l IH]; cbn [forallb]; intros E; [discriminate|].
      apply andb_false_iff in E. destruct E as [E | E].
      - exists a. split; [now left | exact E].
      - destruct (IH E) as [c [Hc Hfree]].
        exists c. split; [now right | exact Hfree]. }
    destruct Hex as [c [Hc Hfree]]. apply In_counters in Hc.
    exists c. split; [lia | exact Hfree].
Qed.

(** X3: on a file system all of whose entries are at the paths of a finite
    list, the resolver always returns, with a path that has no existing
    entry, after at most two more existence tests than the list has
    paths. *)
Theorem get_unique_filename_finite_bound (base : str) (w : world)
    (paths : list str) :
  (forall q, path_exists (fs w) q = true -> In q paths) ->
  exists (calls : list call) (out : str),
    run (get_unique_filename base) w ≈ Ret (after w calls, out)
    /\ path_exists (fs w) out = false
    /\ (List.length calls <= List.length paths + 2)%nat.
Proof.
  intros Hpaths.
  destruct (path_exists (fs w) base) eqn:Ebase.
  - destruct (free_candidate_below (fs w) base paths Hpaths)
      as [n [Hn Hfree]].
    destruct (least_free (fs w) base n (proj1 Hn) Hfree)
      as [l [Hl [Hbelow Hlfree]]].
    exists (CExists base :: probes base 1 (N.to_nat l)), (new_path base l).
    split; [|split].
    + apply resolver_run. right. split; [assumption|]. exists l.
      repeat split; try assumption; lia.
    + assumption.
    + cbn [List.length]. rewrite probes_length. lia.
  - exists [CExists base], base. split; [|split].
    + apply resolver_run. left. repeat split; assumption.
    + assumption.
    + cbn. lia.
Qed.

Lemma get_unique_filename_finite_bound_witness :
  exists (calls : list call) (out : str),
    run (get_unique_filename (lit "notes.txt.si")) demo
    ≈ Ret (after demo calls, out)
    /\ path_exists (fs demo) out = false
    /\ (List.length calls <= List.length demo_paths + 2)%nat.
Proof.
  apply (get_unique_filename_finite_bound (lit "notes.txt.si") demo
           demo_paths).
  exact demo_paths_cover.
Defined.

(* ===================================================================== *)
(** * More on the file pipeline *)
(* ===================================================================== *)

Lemma probes_silent (calls : list call) :
  Forall is_probe calls -> shown calls = [].
Proof.
  unfold shown.
  induction 1 as [|c calls [q ->] _ IH]; [reflexivity | exact IH].
Qed.

Lemma shown_scrub_calls (file_path content out : str) (calls : list call) :
  Forall is_probe calls ->
  shown (scrub_calls file_path content out calls)
  = original_block content ++ [10] ++ cleaned_block content ++ [10]
    ++ total_line content ++ [10] ++ saved_line out ++ [10].
Proof.
  intros Hprobes. unfold scrub_calls.
  rewrite !shown_app, (probes_silent calls Hprobes).
  unfold shown. cbn [flat_map app].
  rewrite app_nil_r, <- !app_assoc. reflexivity.
Qed.

Lemma fs_write_same (f : filesystem) (q : str) (n : node) :
  fs_write f q n q = Some n.
Proof. unfold fs_write. now rewrite str_eqb_refl. Qed.

Lemma fs_write_other (f : filesystem) (q q' : str) (n : node) :
  q' <> q -> fs_write f q n q' = f q'.
Proof. intros H. unfold fs_write. now rewrite (str_eqb_neq _ _ H). Qed.


(** X9: a run that ends, normally or with an exception, has overwritten
    nothing: every entry that existed before is as it was, and at most one
    new entry has appeared. *)
Theorem scrub_invisible_no_overwrite (file_path : str) (w w' : world)
    (r : exn + unit) :
  Leaf (w', r) (run (scrub_invisible file_path) w) ->
  (forall q, path_exists (fs w) q = true -> fs w' q = fs w q)
  /\ (forall q1 q2,
        path_exists (fs w) q1 = false -> path_exists (fs w') q1 = true ->
        path_exists (fs w) q2 = false -> path_exists (fs w') q2 = true ->
        q1 = q2).
Proof.
  intros Hleaf. apply scrub_invisible_returns in Hleaf.
  destruct Hleaf as [[_ [_ [calls [_ Hcases]]]] _].
  assert (Hfs : fs w' = fs w
                \/ exists out n, path_exists (fs w) out = false
                                 /\ fs w' = fs_write (fs w) out n).
  { destruct Hcases as [[_ Hfs] | [out [rcalls [Hres [_ [Hfs | [n Hfs]]]]]]];
      [now left | now left |].
    right. exists out, n. split; [eapply resolved_free, Hres | exact Hfs]. }
  destruct Hfs as [-> | [out [n [Hfree ->]]]].
  - split; [reflexivity | congruence].
  - split.
    + intros q Hq. apply fs_write_other. intros ->. congruence.
    + assert (Hnew : forall q, path_exists (fs w) q = false ->
                path_exists (fs_write (fs w) out n) q = true -> q = out).
      { intros q H0 H1. unfold path_exists, fs_write in *.
        destruct (str_eqb q out) eqn:E; [now apply str_eqb_true|].
        rewrite H1 in H0. discriminate. }
      intros q1 q2 H1 H1' H2 H2'.
      rewrite (Hnew q1 H1 H1'), (Hnew q2 H2 H2'). reflexivity.
Qed.

Lemma scrub_invisible_no_overwrite_witness :
  path_exists (fs demo) (lit "notes.txt.si.1") = true
  /\ fs demo_scrubbed (lit "notes.txt.si.1") = fs demo (lit "notes.txt.si.1").
Proof.
  split; [reflexivity|].
  apply (proj1 (scrub_invisible_no_overwrite (lit "notes.txt") demo
                  demo_scrubbed (inr tt) demo_run)).
  reflexivity.
Defined.

(** X10: after a run on a regular file that returns normally, reading the
    output path gives the cleaned text of the input; that path had no entry
    before; and the console shows, after what it showed before, the original
    text, the cleaned text, the removed count and the output path, in that
    order. *)
Theorem scrub_invisible_saved (file_path : str) (w w' : world) :
  Leaf (w', inr tt) (run (scrub_invisible file_path) w) ->
  path_isfile (fs w) file_path = true ->
  exists (out content : str),
    fs w file_path = Some (RegFile (Some content))
    /\ path_exists (fs w) out = false
    /\ read_text (fs w') out = inr (cleaned content)
    /\ stdout w'
       = stdout w ++ original_block content ++ [10]
         ++ cleaned_block content ++ [10]
         ++ total_line content ++ [10] ++ saved_line out ++ [10].
Proof.
  intros Hleaf Hisfile. apply scrub_invisible_returns in Hleaf.
  destruct (proj2 Hleaf eq_refl) as [[Hnot _] | Hsaved]; [congruence|].
  destruct Hsaved as [content [out [calls [Hfile [Hres [_ [_ ->]]]]]]].
  exists out, content. split; [assumption|].
  split; [eapply resolved_free, Hres|]. split.
  - cbn [fs became]. unfold read_text. now rewrite fs_write_same.
  - unfold stdout. cbn [history became]. rewrite shown_app. f_equal.
    apply shown_scrub_calls, (resolved_probes _ _ _ _ Hres).
Qed.

Lemma scrub_invisible_saved_witness :
  exists (out content : str),
    fs demo (lit "notes.txt") = Some (RegFile (Some content))
    /\ path_exists (fs demo) out = false
    /\ read_text (fs demo_scrubbed) out = inr (cleaned content)
    /\ stdout demo_scrubbed
       = stdout demo ++ original_block content ++ [10]
         ++ cleaned_block content ++ [10]
         ++ total_line content ++ [10] ++ saved_line out ++ [10].
Proof.
  apply (scrub_invisible_saved (lit "notes.txt") demo demo_scrubbed).
  - exact demo_run.
  - reflexivity.
Defined.

(** X11: on a regular file whose bytes are not valid UTF-8 the read raises
    [UnicodeDecodeError], which ends the run: the only calls made are the
    [os.path.isfile] test and the read, nothing is printed and nothing is
    opened for writing. *)
Theorem scrub_invisible_decode_error (file_path : str) (w : world) :
  fs w file_path = Some (RegFile None) ->
  run (scrub_invisible file_path) w
  ≈ Ret (after w [CIsFile file_path; CRead file_path],
         inl (UnicodeDecodeError file_path))
  /\ stdout (after w [CIsFile file_path; CRead file_path]) = stdout w
  /\ written [CIsFile file_path; CRead file_path] = [].
Proof.
  intros Hfile. split; [now apply scrub_invisible_unreadable|].
  split; [|reflexivity].
  rewrite stdout_after. unfold shown. cbn [flat_map app].
  apply app_nil_r.
Qed.

Lemma scrub_invisible_decode_error_witness :
  run (scrub_invisible (lit "raw.bin")) demo
  ≈ Ret (after demo [CIsFile (lit "raw.bin"); CRead (lit "raw.bin")],
         inl (UnicodeDecodeError (lit "raw.bin"))).
Proof.
  apply (scrub_invisible_decode_error (lit "raw.bin") demo). reflexivity.
Defined.












